(** * Anal-Reporting: the event pipeline of [index.js], embedded and verified

    The development follows the source file top to bottom: the IP
    anonymizer ([makeAnonymizer]), the option handling and start-up guard of
    [enableAnalytics], the in-memory queue with its background batch
    inserter ([drain]), the capture handler that feeds the queue, and the
    dashboard read endpoints.

    JavaScript strings are modelled as Rocq strings, read as the UTF-8
    encoding of the JavaScript string.  Every separator the code looks for
    (colon, dot) is ASCII, so splitting on bytes and splitting on UTF-16
    code units cut a string at the same places. *)

From Stdlib Require Import ZArith Ascii String List Lia Bool.
From Stdlib Require Import Numbers.DecimalString.
From stdpp Require Import base list strings gmap sorting.

Local Open Scope string_scope.
Local Open Scope list_scope.

(** ** JavaScript values and string primitives *)

Module Js.

(** The values that flow through an event record and a query parameter
    list.  An object is a flat list of properties whose values are strings
    or [null], which is all the [meta] payload holds. *)
Inductive value :=
| Undefined
| Null
| Bool (b : bool)
| Num (n : Z)
| Str (s : string)
| Obj (fields : list (string * option string)).

(** [ToBoolean]: what [!x], [x || y] and [x ? a : b] test. *)
Definition truthy (v : value) : bool :=
  match v with
  | Undefined | Null => false
  | Bool b => b
  | Num n => negb (n =? 0)%Z
  | Str s => negb (String.eqb s "")
  | Obj _ => true
  end.

(** [a || b] *)
Definition or (a b : value) : value := if truthy a then a else b.

(** [s.includes(c)] for a one-character needle. *)
Fixpoint includes (c : ascii) (s : string) : bool :=
  match s with
  | EmptyString => false
  | String a s' => if Ascii.eqb a c then true else includes c s'
  end.

(** [s.split(sep)] for a one-character separator: the pieces between
    the separators, empty pieces kept, never an empty array. *)
Fixpoint split (sep : ascii) (s : string) : list string :=
  match s with
  | EmptyString => [""]
  | String a s' =>
      if Ascii.eqb a sep then "" :: split sep s'
      else match split sep s' with
           | [] => [String a ""]
           | piece :: rest => String a piece :: rest
           end
  end.

(** [parts.join(sep)] *)
Fixpoint join (sep : string) (parts : list string) : string :=
  match parts with
  | [] => ""
  | [p] => p
  | p :: rest => p +:+ sep +:+ join sep rest
  end.

(** [s.slice(0, n)] on a string and [a.slice(0, n)] on an array, for a
    literal [n >= 0]. *)
Fixpoint str_slice0 (n : nat) (s : string) : string :=
  match n, s with
  | S n', String a s' => String a (str_slice0 n' s')
  | _, _ => ""
  end.

Definition arr_slice0 {A} (n : nat) (a : list A) : list A := take n a.

(** [a.splice(0, deleteCount)]: the removed prefix and what is left.
    The delete count is clamped to [0 .. a.length]. *)
Definition splice0 {A} (deleteCount : Z) (a : list A) : list A * list A :=
  let k := Z.to_nat (Z.min (Z.max deleteCount 0) (Z.of_nat (length a))) in
  (take k a, drop k a).

(** Decimal rendering of a template-literal counter such as [${i++}]. *)
Definition of_nat (n : nat) : string :=
  NilEmpty.string_of_uint (Nat.to_uint n).

End Js.

(** ** SHA-256, as [crypto.createHash("sha256")] computes it (FIPS 180-4)

    Words are 32-bit integers held in [Z], reduced after every addition. *)

Module Sha256.

Local Open Scope Z_scope.

Definition w32 (x : Z) : Z := Z.land x 0xffffffff.
Definition add32 (x y : Z) : Z := w32 (x + y).
Definition rotr (n x : Z) : Z :=
  Z.lor (Z.shiftr x n) (w32 (Z.shiftl x (32 - n))).
Definition not32 (x : Z) : Z := Z.lxor x 0xffffffff.

Definition ch (x y z : Z) : Z := Z.lxor (Z.land x y) (Z.land (not32 x) z).
Definition maj (x y z : Z) : Z :=
  Z.lxor (Z.lxor (Z.land x y) (Z.land x z)) (Z.land y z).
Definition bsig0 (x : Z) : Z :=
  Z.lxor (Z.lxor (rotr 2 x) (rotr 13 x)) (rotr 22 x).
Definition bsig1 (x : Z) : Z :=
  Z.lxor (Z.lxor (rotr 6 x) (rotr 11 x)) (rotr 25 x).
Definition ssig0 (x : Z) : Z :=
  Z.lxor (Z.lxor (rotr 7 x) (rotr 18 x)) (Z.shiftr x 3).
Definition ssig1 (x : Z) : Z :=
  Z.lxor (Z.lxor (rotr 17 x) (rotr 19 x)) (Z.shiftr x 10).

(** The constants are derived as the standard defines them, from the
    first sixty-four primes: the first 32 bits of the fractional part of
    the cube root (round constants) and of the square root (initial hash
    value). *)
Definition is_prime (n : nat) : bool :=
  forallb (fun d => negb (Nat.eqb (Nat.modulo n d) 0)) (seq 2 (n - 2)).

Definition primes : list Z :=
  map Z.of_nat (List.filter is_prime (seq 2 310)).

(** The largest [x] below [2 ^ bits] with [x ^ 3 <= n], one bit at a time. *)
Fixpoint cube_root (bits : nat) (n x : Z) : Z :=
  match bits with
  | O => x
  | S b =>
      let y := Z.lor x (Z.shiftl 1 (Z.of_nat b)) in
      cube_root b n (if y * y * y <=? n then y else x)
  end.

Definition frac_cbrt (p : Z) : Z := w32 (cube_root 36 (Z.shiftl p 96) 0).
Definition frac_sqrt (p : Z) : Z := w32 (Z.sqrt (Z.shiftl p 64)).

Definition K : list Z := Eval vm_compute in map frac_cbrt primes.

(** The eight working variables, also the running hash value. *)
Record regs := Regs { ra : Z; rb : Z; rc : Z; rd : Z;
                      re : Z; rf : Z; rg : Z; rh : Z }.

Definition H0 : regs :=
  Eval vm_compute in
    let h i := frac_sqrt (nth i primes 0) in
    Regs (h 0%nat) (h 1%nat) (h 2%nat) (h 3%nat)
         (h 4%nat) (h 5%nat) (h 6%nat) (h 7%nat).

Definition bytes_of (s : string) : list Z :=
  map (fun c => Z.of_N (N_of_ascii c)) (list_ascii_of_string s).

(** Big-endian bytes of [x], [n] of them. *)
Fixpoint be_bytes (n : nat) (x : Z) : list Z :=
  match n with
  | O => []
  | S n' => Z.land (Z.shiftr x (8 * Z.of_nat n')) 0xff :: be_bytes n' x
  end.

Definition pad (msg : list Z) : list Z :=
  let len := Z.of_nat (length msg) in
  msg ++ [0x80] ++ replicate (Z.to_nat ((55 - len) mod 64)) 0
      ++ be_bytes 8 (8 * len).

Fixpoint chunks {A} (size count : nat) (l : list A) : list (list A) :=
  match count with
  | O => []
  | S c => take size l :: chunks size c (drop size l)
  end.

Definition be_word (bs : list Z) : Z :=
  fold_left (fun acc b => Z.lor (Z.shiftl acc 8) b) bs 0.

Definition block_words (block : list Z) : list Z :=
  map be_word (chunks 4 16 block).

(** Message schedule, newest word first. *)
Fixpoint extend (n : nat) (r : list Z) : list Z :=
  match n with
  | O => r
  | S n' =>
      let w i := nth i r 0 in
      extend n'
        (add32 (add32 (ssig1 (w 1%nat)) (w 6%nat))
               (add32 (ssig0 (w 14%nat)) (w 15%nat)) :: r)
  end.

Definition schedule (ws : list Z) : list Z := rev (extend 48 (rev ws)).

Definition round (s : regs) (kw : Z * Z) : regs :=
  let t1 := add32 (add32 (add32 (rh s) (bsig1 (re s)))
                         (add32 (ch (re s) (rf s) (rg s)) (fst kw)))
                  (snd kw) in
  let t2 := add32 (bsig0 (ra s)) (maj (ra s) (rb s) (rc s)) in
  Regs (add32 t1 t2) (ra s) (rb s) (rc s)
       (add32 (rd s) t1) (re s) (rf s) (rg s).

Definition compress (h : regs) (block : list Z) : regs :=
  let s := fold_left round (combine K (schedule (block_words block))) h in
  Regs (add32 (ra h) (ra s)) (add32 (rb h) (rb s))
       (add32 (rc h) (rc s)) (add32 (rd h) (rd s))
       (add32 (re h) (re s)) (add32 (rf h) (rf s))
       (add32 (rg h) (rg s)) (add32 (rh h) (rh s)).

Definition digest (msg : list Z) : regs :=
  let p := pad msg in
  fold_left compress (chunks 64 (length p / 64) p) H0.

Definition hex_digit (d : Z) : ascii :=
  match String.get (Z.to_nat d) "0123456789abcdef" with
  | Some c => c
  | None => "0"%char
  end.

(** Eight lower-case hex digits, most significant first. *)
Definition hex_word (w : Z) : string :=
  string_of_list_ascii
    (map (fun i => hex_digit (Z.land (Z.shiftr w (4 * i)) 0xf))
         [7; 6; 5; 4; 3; 2; 1; 0]).

Definition hex_regs (h : regs) : string :=
  hex_word (ra h) +:+ hex_word (rb h) +:+ hex_word (rc h)
    +:+ hex_word (rd h) +:+ hex_word (re h) +:+ hex_word (rf h)
    +:+ hex_word (rg h) +:+ hex_word (rh h).

(** [createHash("sha256").update(s).digest("hex")] *)
Definition hex_digest (s : string) : string := hex_regs (digest (bytes_of s)).

End Sha256.

(** ** [makeAnonymizer] (index.js 28-50)

    An IP is [None] when the caller passes [null] or [undefined]. *)

Module Anonymizer.

(** [(ip) => ip || null] *)
Definition anonymize_none (ip : option string) : option string :=
  match ip with
  | Some s => if String.eqb s "" then None else Some s
  | None => None
  end.

(** [(ip) => ip ? sha256(hashSalt + ip).slice(0, 16) : null] *)
Definition anonymize_hash (hashSalt : string) (ip : option string)
  : option string :=
  match ip with
  | Some s =>
      if String.eqb s "" then None
      else Some (Js.str_slice0 16 (Sha256.hex_digest (hashSalt +:+ s)))
  | None => None
  end.

(** The default branch, ['cidr']. *)
Definition anonymize_cidr (ip : option string) : option string :=
  match ip with
  | None => None
  | Some s =>
      if String.eqb s "" then None
      else if Js.includes ":" s
      then Some (Js.join ":" (Js.arr_slice0 3 (Js.split ":" s)) +:+ "::")
      else
        let p := Js.split "." s in
        if negb (Nat.eqb (length p) 4) then Some s
        else Some (Js.join "." (<[3 := "0"]> p))
  end.

Definition makeAnonymizer (mode : string) (hashSalt : string)
  : option string -> option string :=
  if String.eqb mode "none" then anonymize_none
  else if String.eqb mode "hash" then anonymize_hash hashSalt
  else anonymize_cidr.

End Anonymizer.

(** The characters of a lower-case hexadecimal rendering. *)
Definition is_hex (c : ascii) : bool := Js.includes c "0123456789abcdef".

Fixpoint all_hex (s : string) : bool :=
  match s with
  | EmptyString => true
  | String a s' => is_hex a && all_hex s'
  end.

(** A colon-separated group of an address: a string without a colon. *)
Definition group (g : string) : Prop := Js.includes ":" g = false.

(** A dot-separated part of an IPv4 address: no dot and no colon. *)
Definition octet (g : string) : Prop :=
  Js.includes "." g = false /\ Js.includes ":" g = false.

(** ** Options and start-up of [enableAnalytics] (index.js 62-84, 128, 295-305) *)

(** How a statement block ends: normally, or by throwing an [Error] with
    the given message. *)
Inductive completion (A : Type) :=
| Normal (a : A)
| Throw (message : string).
Arguments Normal {A} a.
Arguments Throw {A} message.

(** The [opts] argument.  A property is [None] when it is absent from
    the object; numbers are integers. *)
Record options := Options {
  opt_table : option string;
  opt_batch : option Z;
  opt_intervalMs : option Z;
  opt_anonymizeIp : option string;
  opt_hashSalt : option string;
  opt_databaseUrl : option string;
  opt_dashboard : bool
}.

(** [x || d] for a string-valued property. *)
Definition str_or (x : option string) (d : string) : string :=
  match x with
  | Some s => if String.eqb s "" then d else s
  | None => d
  end.

(** [Number(x || d)] for a number-valued property. *)
Definition num_or (x : option Z) (d : Z) : Z :=
  match x with
  | Some n => if (n =? 0)%Z then d else n
  | None => d
  end.

(** [!x] for a string-valued property. *)
Definition str_falsy (x : option string) : bool :=
  match x with
  | Some s => String.eqb s ""
  | None => true
  end.

(** The constants [enableAnalytics] derives from [opts] before the guard. *)
Record config := Config {
  table : string;
  batchSize : Z;
  intervalMs : Z;
  anonymizeIp : option string -> option string;
  full_ip : bool
}.

Definition configure (opts : options) : config :=
  {| table := str_or (opt_table opts) "web_analytics_events";
     batchSize := num_or (opt_batch opts) 500;
     intervalMs := num_or (opt_intervalMs opts) 2000;
     anonymizeIp :=
       Anonymizer.makeAnonymizer (str_or (opt_anonymizeIp opts) "cidr")
                                 (str_or (opt_hashSalt opts) "");
     (* [opts.anonymizeIp === "none"], read again by the capture handler *)
     full_ip := bool_decide (opt_anonymizeIp opts = Some "none") |}.

(** The calls [enableAnalytics] makes outside its closure, in program
    order: [new Pool], [pool.query(tableSql(table))], [setInterval],
    [app.use], the dashboard block as a whole, [console.log]. *)
Inductive effect :=
| NewPool (connectionString : string)
| EnsureTable (table : string)
| SetInterval (ms : Z)
| AppUse
| DashboardListen
| ConsoleLog (format : string) (args : list Js.value).

(** How each of these calls returns in a given environment: normally, or
    by throwing.  The code wraps none of them in a [try]; the [.catch] on
    the table statement sees a rejected promise only. *)
Definition world : Type := effect -> completion unit.

(** An environment in which every call returns. *)
Definition quiet : world := fun _ => Normal tt.

(** Statements in sequence: the first call that throws ends the function.
    The calls reached are listed, the throwing one included. *)
Fixpoint perform (w : world) (calls : list effect)
  : list effect * completion unit :=
  match calls with
  | [] => ([], Normal tt)
  | call :: rest =>
      match w call with
      | Normal _ =>
          let '(reached, outcome) := perform w rest in
          (call :: reached, outcome)
      | Throw message => ([call], Throw message)
      end
  end.

Definition enable_effects (opts : options) (c : config) : list effect :=
  [ NewPool (default "" (opt_databaseUrl opts));
    EnsureTable (table c);
    SetInterval (intervalMs c);
    AppUse ]
  ++ (if opt_dashboard opts then [DashboardListen] else [])
  ++ [ ConsoleLog "[analytics] enabled (table=%s, batch=%s, intervalMs=%s)"
         [Js.Str (table c); Js.Num (batchSize c); Js.Num (intervalMs c)] ].

(** [enableAnalytics(app, opts)]: the calls reached, and whether the
    function returned its handle (here the configuration the closures
    share) or threw, at the guard or in one of the calls. *)
Definition enableAnalytics (w : world) (opts : options)
  : list effect * completion config :=
  let c := configure opts in
  if str_falsy (opt_databaseUrl opts)
  then ([], Throw "enableAnalytics: databaseUrl is required")
  else
    match perform w (enable_effects opts c) with
    | (reached, Normal _) => (reached, Normal c)
    | (reached, Throw message) => (reached, Throw message)
    end.

(** ** Event records and the insert statement (index.js 93-120, 144-160) *)

Record event := Event {
  event_type : Js.value;
  occurred_at : Js.value;
  user_id : Js.value;
  route : Js.value;
  method : Js.value;
  status : Js.value;
  latency_ms : Js.value;
  ip_cidr : Js.value;
  ip_full : Js.value;
  user_agent : Js.value;
  meta : Js.value
}.

(** The eleven values [params.push(...)] appends for one record. *)
Definition row_params (e : event) : list Js.value :=
  [ event_type e; occurred_at e; user_id e; route e; method e; status e;
    latency_ms e; ip_cidr e; ip_full e; user_agent e;
    Js.or (meta e) Js.Null ].

(** The tuple [values.push(...)] appends when the counter stands at [i]. *)
Definition row_tuple (i : nat) : string :=
  "(" +:+ Js.join ","
            (map (fun k => "$" +:+ Js.of_nat (i + k)) (seq 0 11)) +:+ ")".

(** One turn of [for (const e of items)] on [(values, params, i)]. *)
Definition push_row (acc : list string * list Js.value * nat) (e : event)
  : list string * list Js.value * nat :=
  let '(values, params, i) := acc in
  (values ++ [row_tuple i], params ++ row_params e, i + 11).

Definition insert_sql (table : string) (values : list string) : string :=
  "
        INSERT INTO " +:+ table +:+ "
        (event_type, occurred_at, user_id, route, method, status, latency_ms, ip_cidr, ip_full, user_agent, meta)
        VALUES " +:+ Js.join "," values +:+ "
      ".

(** A call [pool.query(sql, params)] made by [drain]; [batch] and
    [tuples] remember the [items] and [values] it was built from. *)
Record flush := Flush {
  batch : list event;
  tuples : list string;
  sql : string;
  params : list Js.value
}.

Definition insert_query (c : config) (items : list event) : flush :=
  let '(values, params, _) := fold_left push_row items ([], [], 1) in
  {| batch := items; tuples := values;
     sql := insert_sql (table c) values; params := params |}.

(** ** The queue and its background batch inserter (index.js 86-128) *)

(** The variables the closures of [enableAnalytics] share, together with
    a record of what they did to the pool, the store and the console. *)
Record core := Core {
  queue : list event;           (* [const queue = []] *)
  draining : bool;              (* [let draining = false] *)
  inflight : list flush;        (* [pool.query] promises not settled yet *)
  sent : list flush;            (* every [pool.query] of [drain], oldest first *)
  stored : list event;          (* rows of the inserts the store accepted *)
  errors : list (list string);  (* arguments of each [console.error] *)
  timer : bool;                 (* the interval of line 128 is live *)
  pool_ended : bool             (* [pool.end()] has been called *)
}.

(** The state [enableAnalytics] leaves behind when it returns. *)
Definition boot : core :=
  {| queue := []; draining := false; inflight := []; sent := [];
     stored := []; errors := []; timer := true; pool_ended := false |}.

Definition set_queue (q : list event) (s : core) : core :=
  {| queue := q; draining := draining s; inflight := inflight s;
     sent := sent s; stored := stored s; errors := errors s;
     timer := timer s; pool_ended := pool_ended s |}.

Definition set_draining (b : bool) (s : core) : core :=
  {| queue := queue s; draining := b; inflight := inflight s;
     sent := sent s; stored := stored s; errors := errors s;
     timer := timer s; pool_ended := pool_ended s |}.

Definition set_inflight (fs : list flush) (s : core) : core :=
  {| queue := queue s; draining := draining s; inflight := fs;
     sent := sent s; stored := stored s; errors := errors s;
     timer := timer s; pool_ended := pool_ended s |}.

(** [pool.query(sql, params)] is called: the promise is pending. *)
Definition pool_query (q : flush) (s : core) : core :=
  {| queue := queue s; draining := draining s;
     inflight := inflight s ++ [q]; sent := sent s ++ [q];
     stored := stored s; errors := errors s;
     timer := timer s; pool_ended := pool_ended s |}.

Definition store_rows (rows : list event) (s : core) : core :=
  {| queue := queue s; draining := draining s; inflight := inflight s;
     sent := sent s; stored := stored s ++ rows; errors := errors s;
     timer := timer s; pool_ended := pool_ended s |}.

Definition console_error (args : list string) (s : core) : core :=
  {| queue := queue s; draining := draining s; inflight := inflight s;
     sent := sent s; stored := stored s; errors := errors s ++ [args];
     timer := timer s; pool_ended := pool_ended s |}.

Definition end_pool (s : core) : core :=
  {| queue := queue s; draining := draining s; inflight := inflight s;
     sent := sent s; stored := stored s; errors := errors s;
     timer := timer s; pool_ended := true |}.

(** Statements that read and write the shared variables and may throw. *)
Definition M (A : Type) : Type := core -> completion A * core.

Definition ret {A} (a : A) : M A := fun s => (Normal a, s).
Definition bind {A B} (m : M A) (k : A -> M B) : M B :=
  fun s => match m s with
           | (Normal a, s1) => k a s1
           | (Throw e, s1) => (Throw e, s1)
           end.
Definition update (f : core -> core) : M unit := fun s => (Normal tt, f s).
Definition lift {A} (r : completion A) : M A := fun s => (r, s).

Notation "x <- m ;; k" := (bind m (fun x => k))
  (at level 100, m at next level, right associativity).
Notation "m ;;; k" := (bind m (fun _ => k))
  (at level 100, right associativity).

(** [try { body } catch (err) { handler(err.message) }] *)
Definition try_catch {A} (body : M A) (handler : string -> M A) : M A :=
  fun s => match body s with
           | (Normal a, s1) => (Normal a, s1)
           | (Throw e, s1) => handler e s1
           end.

(** [try { body } catch (err) { handler } finally { final }] *)
Definition try_catch_finally {A} (body : M A) (handler : string -> M A)
    (final : M unit) : M A :=
  fun s => match try_catch body handler s with
           | (Normal a, s1) =>
               match final s1 with
               | (Normal _, s2) => (Normal a, s2)
               | (Throw e, s2) => (Throw e, s2)
               end
           | (Throw e, s1) =>
               match final s1 with
               | (Normal _, s2) => (Throw e, s2)
               | (Throw e', s2) => (Throw e', s2)
               end
           end.

(** [drain()] from its call up to [await pool.query(sql, params)]: the
    guard, the flag, the splice and the statement.  Nothing in this part
    can throw. *)
Definition drain (c : config) (s : core) : core :=
  if draining s || Nat.eqb (length (queue s)) 0 then s
  else
    let s1 := set_draining true s in
    let '(items, rest) := Js.splice0 (batchSize c) (queue s1) in
    pool_query (insert_query c items) (set_queue rest s1).

(** [drain()] from the settlement of the awaited promise to its end: the
    [await] throws inside the [try] when the promise was rejected. *)
Definition drain_resume (settled : completion unit) : M unit :=
  try_catch_finally
    (lift settled)
    (fun message =>
       update (console_error ["[analytics] batch insert failed:"; message]))
    (update (set_draining false)).

(** ** The capture handler (index.js 134-166) *)

(** What one run of the [finish] handler reads from the request, the
    response, the clock and the host's callbacks.  [ob_ip] is the value of
    the local constant [ip]. *)
Record observed := Observed {
  ob_sample : completion Js.value;    (* [sample(req, res)] *)
  ob_latency : Z;                     (* [latencyMs] *)
  ob_ip : string;                     (* [ip] *)
  ob_time : string;                   (* [new Date().toISOString()] *)
  ob_user_id : completion Js.value;   (* [getUserId(req)] *)
  ob_route : completion Js.value;     (* [normalizeRoute(req)] *)
  ob_method : Js.value;               (* [req.method] *)
  ob_status : Js.value;               (* [res.statusCode] *)
  ob_user_agent : Js.value;           (* [req.get && req.get("user-agent")] *)
  ob_url : option string;             (* [req.originalUrl] *)
  ob_referer : option string;         (* [req.get && req.get("referer")] *)
  ob_hostname : option string         (* [process.env.HOSTNAME] *)
}.

(** A string-or-null result as a value. *)
Definition of_option (o : option string) : Js.value :=
  match o with
  | Some s => Js.Str s
  | None => Js.Null
  end.

(** [x || null] for a string that may be absent. *)
Definition or_null (o : option string) : option string :=
  match o with
  | Some s => if String.eqb s "" then None else Some s
  | None => None
  end.

(** The object literal handed to [queue.push]. *)
Definition make_event (c : config) (ob : observed) (uid rt : Js.value) : event :=
  {| event_type := Js.Str "request";
     occurred_at := Js.Str (ob_time ob);
     user_id := uid;
     route := rt;
     method := ob_method ob;
     status := ob_status ob;
     latency_ms := Js.Num (ob_latency ob);
     ip_cidr := of_option (anonymizeIp c (Some (ob_ip ob)));
     ip_full := if full_ip c then Js.or (Js.Str (ob_ip ob)) Js.Null
                else Js.Null;
     user_agent := ob_user_agent ob;
     meta := Js.Obj [ ("url", ob_url ob);
                      ("ref", or_null (ob_referer ob));
                      ("hostname", or_null (ob_hostname ob)) ] |}.

(** The body of the [try] in the handler. *)
Definition capture (c : config) (ob : observed) : M unit :=
  sampled <- lift (ob_sample ob) ;;
  if negb (Js.truthy sampled) then ret tt
  else
    uid <- lift (ob_user_id ob) ;;
    rt <- lift (ob_route ob) ;;
    update (fun s => set_queue (queue s ++ [make_event c ob uid rt]) s) ;;;
    update (fun s =>
              if (batchSize c <=? Z.of_nat (length (queue s)))%Z
              then drain c s else s).

(** [res.on("finish", () => { try { ... } catch (e) { } })] *)
Definition on_finish (c : config) (ob : observed) : M unit :=
  try_catch (capture c ob) (fun _ => ret tt).

(** ** The whole closure as a transition system *)

(** What can happen after start-up: the interval fires, a response
    finishes, a pending insert settles, the host calls [stop()]. *)
Inductive label :=
| Tick
| Finish (ob : observed)
| Settle (i : nat) (outcome : completion unit)
| Stop.

Definition step (c : config) (l : label) : M unit :=
  match l with
  | Tick => update (fun s => if timer s then drain c s else s)
  | Finish ob => on_finish c ob
  | Settle i outcome =>
      fun s =>
        match inflight s !! i with
        | None => (Normal tt, s)
        | Some q =>
            let s1 := set_inflight (delete i (inflight s)) s in
            let s2 := match outcome with
                      | Normal _ => store_rows (batch q) s1
                      | Throw _ => s1
                      end in
            drain_resume outcome s2
        end
  | Stop =>
      (* [await pool.end()]: the pool refuses to be ended twice, and
         [stop] passes the rejection on *)
      fun s =>
        if pool_ended s
        then (Throw "Called end on pool more than once", s)
        else (Normal tt, end_pool s)
  end.

(** The state after a label; an exception that escapes is kept apart by
    [run]. *)
Definition next (c : config) (s : core) (l : label) : core := snd (step c l s).

(** A run reports the first exception that reaches the host, if there is
    one.  A rejected [stop()] ends nothing by itself: the interval and the
    handlers stay in place, so the state goes on through the rest of the
    trace. *)
Fixpoint run (c : config) (trace : list label) : M unit :=
  match trace with
  | [] => ret tt
  | l :: rest =>
      fun s =>
        match step c l s with
        | (Normal _, s1) => run c rest s1
        | (Throw message, s1) => (Throw message, snd (run c rest s1))
        end
  end.

(** The label of a call to [stop()]. *)
Definition is_stop (l : label) : bool :=
  match l with
  | Stop => true
  | _ => false
  end.

Definition after (c : config) (trace : list label) : core :=
  snd (run c trace boot).

(** The records in the order they were enqueued: those the flushes have
    removed so far, then those still waiting. *)
Definition history (s : core) : list event :=
  concat (map batch (sent s)) ++ queue s.

(** The records a label appends to the queue. *)
Definition enqueued (c : config) (l : label) : list event :=
  match l with
  | Finish ob =>
      match ob_sample ob, ob_user_id ob, ob_route ob with
      | Normal sampled, Normal uid, Normal rt =>
          if Js.truthy sampled then [make_event c ob uid rt] else []
      | _, _, _ => []
      end
  | _ => []
  end.

(** ** The dashboard read endpoints (index.js 226-255) *)

(** A result row: column name to value. *)
Definition row : Type := list (string * Js.value).

(** How the pool settles [pool.query(sql, params)] for a read: the rows,
    or a rejection with the store's message. *)
Definition store : Type := string -> list Js.value -> completion (list row).

(** What a handler sends: [res.json(rows)] under the default status, or
    [res.status(500).json({ error })]. *)
Inductive reply :=
| Json (rows : list row)
| Failed (status : Z) (error : string).

(** The text [COUNT( * )::int] of both statements, written in two pieces
    because an opening parenthesis followed by a star would read as the
    start of a comment. *)
Definition count_star : string := "COUNT(" +:+ "*)::int".

Definition traffic_sql (table : string) : string :=
  "SELECT date_trunc($1, occurred_at) AS t, " +:+ count_star +:+ " AS c
           FROM " +:+ table +:+ "
           WHERE occurred_at > now() - ($2)::interval
           GROUP BY 1 ORDER BY 1".

(** [GET /api/traffic]; the arguments are [req.query.window] and
    [req.query.bucket].  The result lists the calls made to the pool and
    the reply. *)
Definition api_traffic (c : config) (db : store) (q_window q_bucket : Js.value)
  : list (string * list Js.value) * reply :=
  let window := Js.or q_window (Js.Str "24 hours") in
  let bucket := Js.or q_bucket (Js.Str "hour") in
  let text := traffic_sql (table c) in
  ([(text, [bucket; window])],
   match db text [bucket; window] with
   | Normal rows => Json rows
   | Throw message => Failed 500 message
   end).

Definition top_routes_sql (table : string) : string :=
  "SELECT route, " +:+ count_star +:+ " AS c
           FROM " +:+ table +:+ "
           WHERE occurred_at > now() - interval '24 hours' AND route IS NOT NULL
           GROUP BY 1 ORDER BY 2 DESC LIMIT 50".

(** [GET /api/top-routes] *)
Definition api_top_routes (c : config) (db : store)
  : list (string * list Js.value) * reply :=
  let text := top_routes_sql (table c) in
  ([(text, [])],
   match db text [] with
   | Normal rows => Json rows
   | Throw message => Failed 500 message
   end).

(** *** What the top-routes statement selects

    The statement is read clause by clause over the two columns it
    touches.  A timestamp is a count of microseconds, the resolution of
    [TIMESTAMPTZ]; [NULL] is [None]. *)

Record table_row := TableRow {
  col_occurred_at : Z;
  col_route : option string
}.

Definition day_us : Z := 24 * 60 * 60 * 1000000.

(** [WHERE occurred_at > now() - interval '24 hours' AND route IS NOT NULL] *)
Definition selected (now : Z) (r : table_row) : bool :=
  (now - day_us <? col_occurred_at r)%Z && bool_decide (is_Some (col_route r)).

(** [GROUP BY 1] with [COUNT( * )]: one entry per route, holding the number
    of rows of the group. *)
Definition group_count (rows : list table_row) : gmap string nat :=
  foldr (fun r m =>
           match col_route r with
           | Some k => <[k := S (default 0 (m !! k))]> m
           | None => m
           end) ∅ rows.

(** [ORDER BY 2 DESC]: the row with the larger count comes first. *)
Definition count_desc (x y : string * nat) : Prop := snd y <= snd x.

#[global] Instance count_desc_dec x y : Decision (count_desc x y).
Proof. unfold count_desc. apply _. Defined.

(** The rows of the answer as (route, c) pairs. *)
Definition top_routes (now : Z) (tbl : list table_row) : list (string * nat) :=
  take 50
    (merge_sort count_desc
       (map_to_list (group_count (List.filter (selected now) tbl)))).

(** The number [c] that [COUNT( * )] gives the group of route [k]. *)
Definition hits (now : Z) (tbl : list table_row) (k : string) : nat :=
  length (List.filter
            (fun r => selected now r && bool_decide (col_route r = Some k)) tbl).

Definition as_row (rc : string * nat) : row :=
  [("route", Js.Str (fst rc)); ("c", Js.Num (Z.of_nat (snd rc)))].

(** A store that holds [tbl] at time [now] and answers the top-routes
    statement; other statements are outside this development. *)
Definition postgres (c : config) (now : Z) (tbl : list table_row) : store :=
  fun text _ =>
    if String.eqb text (top_routes_sql (table c))
    then Normal (map as_row (top_routes now tbl))
    else Throw "statement not modelled".

(** ** Vocabulary of the statements *)

(** A column is populated when the value bound to it is not [null]. *)
Definition populated (v : Js.value) : bool :=
  match v with
  | Js.Null | Js.Undefined => false
  | _ => true
  end.

(** The value [ip || null] for a string [ip]. *)
Definition ip_or_null (ip : string) : Js.value :=
  if String.eqb ip "" then Js.Null else Js.Str ip.

(** The number of records one [splice(0, batchSize)] removes from a queue
    of [n] records. *)
Definition removed_count (c : config) (n : nat) : nat :=
  Z.to_nat (Z.min (Z.max (batchSize c) 0) (Z.of_nat n)).

(** The state [drain] leaves when its guard lets it through. *)
Definition flushing (c : config) (s : core) : core :=
  let k := removed_count c (length (queue s)) in
  pool_query (insert_query c (take k (queue s)))
             (set_queue (drop k (queue s)) (set_draining true s)).

(** The flag and the pending inserts agree, and the interval is live. *)
Definition consistent (s : core) : Prop :=
  timer s = true
  /\ ((draining s = false /\ inflight s = [])
      \/ (draining s = true /\ exists q, inflight s = [q])).

(** The distinct non-null routes of the rows of the last 24 hours. *)
Definition routes_in_window (now : Z) (tbl : list table_row) : gset string :=
  list_to_set (omap col_route (List.filter (selected now) tbl)).

(** The rows of route [k] among [rows]. *)
Definition of_route (k : string) (r : table_row) : bool :=
  bool_decide (col_route r = Some k).

(** The traffic endpoint validates its bucket against [allowed] when every
    statement it hands to the pool binds, as first parameter, a string of
    that list. *)
Definition bucket_checked (allowed : list string) : Prop :=
  forall (c : config) (db : store) (q_window q_bucket : Js.value)
         (text : string) (ps : list Js.value),
    In (text, ps) (fst (api_traffic c db q_window q_bucket)) ->
    exists g : string, ps !! 0 = Some (Js.Str g) /\ In g allowed.

(** ** Sample inputs for the concrete instances *)

Definition sample_observed (ip : string) : observed :=
  {| ob_sample := Normal (Js.Bool true); ob_latency := 12; ob_ip := ip;
     ob_time := "2025-01-01T00:00:00.000Z";
     ob_user_id := Normal Js.Null; ob_route := Normal (Js.Str "/users/:id");
     ob_method := Js.Str "GET"; ob_status := Js.Num 200;
     ob_user_agent := Js.Str "curl/8.5.0"; ob_url := Some "/users/7";
     ob_referer := None; ob_hostname := None |}.

Definition sample_options (policy : option string) (batch : option Z) : options :=
  {| opt_table := None; opt_batch := batch; opt_intervalMs := None;
     opt_anonymizeIp := policy; opt_hashSalt := None;
     opt_databaseUrl := Some "postgres://localhost/app";
     opt_dashboard := false |}.

(** A table for the scenario of the specification: sixty distinct routes
    [A], [B], ... seen in the last day, the first ten of them twice, one
    row older than a day and one row without a route. *)
Definition sixty_routes (now : Z) : list table_row :=
  map (fun i => TableRow (now - 1000) (Some (String (ascii_of_nat (65 + i)) "")))
      (seq 0 60 ++ seq 0 10)
  ++ [ TableRow (now - day_us - 1) (Some "/stale"); TableRow now None ].

(** A start-up in which the pool refuses the connection string when the
    table statement is issued. *)
Definition refusing (message : string) : world :=
  fun call =>
    match call with
    | EnsureTable _ => Throw message
    | _ => Normal tt
    end.

(** A store that rejects every statement. *)
Definition rejecting_store : store :=
  fun _ _ => Throw "invalid input syntax".

(** * The rest of [index.js]

    The parts around the pipeline: the default callbacks, the middleware
    with its path filter and its reading of the client address, the
    basic-auth guard of the dashboard and the statements of the other
    read endpoints. *)

(** ** The default callbacks (index.js 52-60) *)







(** ** The path filter of the middleware (index.js 73, 132) *)

(** Case folding of the flag [i] on a pattern of ASCII letters: only
    [A]-[Z] fold, onto [a]-[z]. *)
Definition to_lower (a : ascii) : ascii :=
  let n := nat_of_ascii a in
  if Nat.leb 65 n && Nat.leb n 90 then ascii_of_nat (n + 32) else a.

Fixpoint lower (s : string) : string :=
  match s with
  | EmptyString => EmptyString
  | String a s' => String (to_lower a) (lower s')
  end.

(** [s] ends with [suffix]. *)
Fixpoint ends_with (suffix s : string) : bool :=
  String.eqb s suffix
  || match s with
     | String _ s' => ends_with suffix s'
     | EmptyString => false
     end.

(** The alternatives of the default pattern, each with its dot. *)
Definition asset_extensions : list string :=
  [".css"; ".js"; ".png"; ".jpg"; ".svg"; ".woff"; ".woff2"].

(** The default pattern's [test]: a dot, one of the extensions, the end of
    the path, letters in either case. *)
Definition asset_test (path : string) : bool :=
  existsb (fun ext => ends_with ext (lower path)) asset_extensions.

(** [redactPaths.some((r) => r.test(req.path))]; [redactPaths] is
    [opts.redactPaths] or the default pattern alone. *)
Definition redacted (redactPaths : option (list (string -> bool)))
    (path : string) : bool :=
  existsb (fun r => r path) (default [asset_test] redactPaths).

(** The middleware on one request whose response finishes: a redacted path
    goes straight to [next()], any other has the [finish] handler run. *)
Definition on_request (c : config) (redactPaths : option (list (string -> bool)))
    (path : string) (ob : observed) : M unit :=
  if redacted redactPaths path then ret tt else on_finish c ob.

(** ** The client address (index.js 139-142) *)

(** [req.headers["x-forwarded-for"]]: absent, one string, or an array. *)
Inductive header :=
| Absent
| Single (v : string)
| Multiple (vs : list string).

(** The constant [xfwd]. *)
Definition forwarded (h : header) : option string :=
  match h with
  | Multiple vs => head vs
  | Single v => Some (str_or (Some v) "")
  | Absent => Some ""
  end.

(** [s.split(",")[0]] *)
Definition first_hop (s : string) : string :=
  match Js.split "," s with
  | piece :: _ => piece
  | [] => ""
  end.

Section ClientAddress.

(** [String.prototype.trim], supplied by the runtime. *)
Variable trim : string -> string.

(** The constant [ip]; [req_ip] is [req.ip]. *)
Definition client_ip (h : header) (req_ip : option string) : string :=
  trim (first_hop (str_or (forwarded h) (str_or req_ip ""))).

End ClientAddress.

(** ** The basic-auth guard of the dashboard (index.js 176-193) *)

(** [opts.dashboard.basicAuth] *)
Record basic_auth := BasicAuth {
  ba_user : option string;
  ba_pass : option string
}.

(** What the guard does with a request: [next()], or status 401 with the
    given body and the header [WWW-Authenticate: Basic]. *)
Inductive auth_reply :=
| PassOn
| Deny (body : string).

(** [s.slice(n)] *)
Fixpoint str_drop (n : nat) (s : string) : string :=
  match n, s with
  | S n', String _ s' => str_drop n' s'
  | _, _ => s
  end.

(** [const [u, p] = decoded.split(":", 2)]: [p] is [undefined] when there
    is no colon. *)
Definition credentials (decoded : string) : string * option string :=
  match Js.split ":" decoded with
  | u :: p :: _ => (u, Some p)
  | [u] => (u, None)
  | [] => ("", None)
  end.

Section BasicAuthGuard.

(** [Buffer.from(x, "base64").toString("utf8")], supplied by the runtime. *)
Variable base64_utf8 : string -> string.

(** The handler installed by [dash.use]; [authorization] is
    [req.headers.authorization]. *)
Definition check_basic (b : basic_auth) (authorization : option string)
  : auth_reply :=
  let hdr := str_or authorization "" in
  if negb (String.prefix "Basic " hdr) then Deny "Auth required"
  else
    let '(u, p) := credentials (base64_utf8 (str_drop 6 hdr)) in
    if bool_decide (Some u = ba_user b) && bool_decide (p = ba_pass b)
    then PassOn
    else Deny "Bad credentials".

(** The guard as a request meets it: installed only under
    [basic && basic.user]. *)
Definition dashboard_guard (basic : option basic_auth)
    (authorization : option string) : auth_reply :=
  match basic with
  | Some b =>
      if str_falsy (ba_user b) then PassOn else check_basic b authorization
  | None => PassOn
  end.

End BasicAuthGuard.

(** ** The statements of the other read endpoints (index.js 210-212, 257-283)

    As for the top routes, each statement is read clause by clause over the
    columns it touches. *)

Record stored_event := StoredEvent {
  st_occurred_at : Z;
  st_status : option Z;
  st_ip_cidr : option string;
  st_ip_full : option string
}.

(** [WHERE occurred_at > now() - interval '<span>'], the span in
    microseconds.  A span given in days is counted at 24 hours a day, as
    the store does when the session time zone has no clock change inside
    the span. *)
Definition within (span now : Z) (r : stored_event) : bool :=
  (now - span <? st_occurred_at r)%Z.

(** [GROUP BY] a key with [COUNT( * )]; a [NULL] key is a group like any
    other. *)
Definition group_by_count `{Countable K} {A} (key : A -> K) (rows : list A)
  : gmap K nat :=
  foldr (fun r m => <[key r := S (default 0 (m !! key r))]> m) ∅ rows.

(** [ORDER BY c DESC] on (key, c) pairs. *)
Definition larger_first {K} (x y : K * nat) : Prop := snd y <= snd x.

#[global] Instance larger_first_dec {K} (x y : K * nat) :
  Decision (larger_first x y).
Proof. unfold larger_first. apply _. Defined.

(** [SELECT status, COUNT( * )::int AS c ... interval '7 days' GROUP BY
    status ORDER BY c DESC] of the summary. *)
Definition statuses (now : Z) (tbl : list stored_event) : list (option Z * nat) :=
  merge_sort larger_first
    (map_to_list (group_by_count st_status
                    (List.filter (within (7 * day_us) now) tbl))).

(** [COALESCE(ip_full, ip_cidr)] *)
Definition coalesce (a b : option string) : option string :=
  match a with
  | Some _ => a
  | None => b
  end.

Definition ip_key (r : stored_event) : option string :=
  coalesce (st_ip_full r) (st_ip_cidr r).

(** [SELECT COALESCE(ip_full, ip_cidr) AS ip, COUNT( * )::int AS c ...
    interval '24 hours' GROUP BY 1 ORDER BY 2 DESC LIMIT 50] *)
Definition top_ips (now : Z) (tbl : list stored_event)
  : list (option string * nat) :=
  take 50
    (merge_sort larger_first
       (map_to_list (group_by_count ip_key
                       (List.filter (within day_us now) tbl)))).

(** [ORDER BY occurred_at DESC]: the later row comes first. *)
Definition later_first (x y : stored_event) : Prop :=
  (st_occurred_at y <= st_occurred_at x)%Z.

#[global] Instance later_first_dec x y : Decision (later_first x y).
Proof. unfold later_first. apply _. Defined.

(** [SELECT ... ORDER BY occurred_at DESC LIMIT 200] *)
Definition recent (tbl : list stored_event) : list stored_event :=
  take 200 (merge_sort later_first tbl).

(** The text column a bound parameter is stored in: [NULL] for [null],
    the string for a string. *)
Definition text_column (v : Js.value) : option string :=
  match v with
  | Js.Str s => Some s
  | _ => None
  end.

(** ** Vocabulary of the further statements *)

(** One turn of the interval followed by the settlement of the insert it
    started, once per outcome. *)
Definition rounds (outcomes : list (completion unit)) : list label :=
  flat_map (fun r => [Tick; Settle 0 r]) outcomes.

(** A label other than the rejection of an insert. *)
Definition no_rejection (l : label) : bool :=
  match l with
  | Settle _ (Throw _) => false
  | _ => true
  end.

(** The records of the inserts that are still pending. *)
Definition pending (s : core) : list event := concat (map batch (inflight s)).

(** Three stored rows of the last hour, two answered 200 from one /24 and
    one answered 500 with no address, and one row two weeks old. *)
Definition sample_table (now : Z) : list stored_event :=
  [ StoredEvent (now - 3000) (Some 200%Z) (Some "198.51.100.0") None;
    StoredEvent (now - 2000) (Some 500%Z) None None;
    StoredEvent (now - 1000) (Some 200%Z) (Some "198.51.100.0") None;
    StoredEvent (now - 14 * day_us) (Some 200%Z) (Some "203.0.113.0") None ].

(** * Properties *)

(** ** Strings *)

(** [String.append] does not unfold under [simpl] here; these two
    equations are its defining clauses. *)
Lemma append_cons (a : ascii) (x y : string) :
  String a x +:+ y = String a (x +:+ y).
Proof. reflexivity. Qed.

Lemma append_nil_l (y : string) : "" +:+ y = y.
Proof. reflexivity. Qed.

Ltac str_simpl :=
  repeat (progress (rewrite ?append_cons, ?append_nil_l; simpl)).

Lemma append_nil_r (s : string) : s +:+ "" = s.
Proof. induction s as [|a s IH]; str_simpl; [reflexivity | now rewrite IH]. Qed.

Lemma append_assoc (x y z : string) : (x +:+ y) +:+ z = x +:+ (y +:+ z).
Proof. induction x as [|a x IH]; str_simpl; [reflexivity | now rewrite IH]. Qed.

Ltac str_norm :=
  repeat (rewrite append_assoc || rewrite append_cons || rewrite append_nil_l).

Lemma append_length (x y : string) :
  String.length (x +:+ y) = String.length x + String.length y.
Proof. induction x as [|a x IH]; str_simpl; [reflexivity | now rewrite IH]. Qed.

Lemma includes_app (ch : ascii) (x y : string) :
  Js.includes ch (x +:+ y) = Js.includes ch x || Js.includes ch y.
Proof.
  induction x as [|a x IH]; str_simpl; [reflexivity |].
  destruct (Ascii.eqb a ch); [reflexivity | exact IH].
Qed.

Lemma split_not_nil (sep : ascii) (s : string) : Js.split sep s <> [].
Proof.
  destruct s as [|a s]; simpl; [discriminate |].
  destruct (Ascii.eqb a sep); [discriminate |].
  destruct (Js.split sep s); discriminate.
Qed.

(** A string without the separator is a single piece. *)
Lemma split_whole (sep : ascii) (s : string) :
  Js.includes sep s = false -> Js.split sep s = [s].
Proof.
  induction s as [|a s IH]; simpl; [reflexivity |].
  destruct (Ascii.eqb a sep); [discriminate |].
  intros H. now rewrite (IH H).
Qed.

(** The first separator ends the first piece. *)
Lemma split_cons (sep : ascii) (x y : string) :
  Js.includes sep x = false ->
  Js.split sep (x +:+ String sep y) = x :: Js.split sep y.
Proof.
  induction x as [|a x IH]; str_simpl.
  - intros _. now rewrite Ascii.eqb_refl.
  - destruct (Ascii.eqb a sep); [discriminate |].
    intros H. now rewrite (IH H).
Qed.

Lemma includes_sep (sep : ascii) (x y : string) :
  Js.includes sep (x +:+ String sep y) = true.
Proof.
  rewrite includes_app. simpl. rewrite Ascii.eqb_refl.
  now destruct (Js.includes sep x).
Qed.

Lemma append_sep_not_empty (sep : ascii) (x y : string) :
  String.eqb (x +:+ String sep y) "" = false.
Proof. now destruct x. Qed.

Lemma join_grow (sep : string) (a : ascii) (p : string) (rest : list string) :
  Js.join sep (String a p :: rest) = String a (Js.join sep (p :: rest)).
Proof. destruct rest; reflexivity. Qed.

(** Joining the pieces with the separator gives the string back. *)
Lemma join_split (sep : ascii) (s : string) :
  Js.join (String sep "") (Js.split sep s) = s.
Proof.
  induction s as [|a s IH]; simpl; [reflexivity |].
  pose proof (split_not_nil sep s) as Hnn.
  destruct (Ascii.eqb_spec a sep) as [->|Hne];
    destruct (Js.split sep s) as [|p rest]; try congruence.
  - change (Js.join (String sep "") ("" :: p :: rest))
      with (String sep (Js.join (String sep "") (p :: rest))).
    now rewrite IH.
  - rewrite join_grow. now rewrite IH.
Qed.

(** No piece holds the separator: with [join_split], the pieces are the
    maximal separator-free stretches of the string, as [split] returns
    them in JavaScript. *)
Lemma split_pieces (sep : ascii) (s : string) :
  Forall (fun piece => Js.includes sep piece = false) (Js.split sep s).
Proof.
  induction s as [|a s IH]; simpl; [repeat constructor |].
  destruct (Ascii.eqb a sep) eqn:Ha; [constructor; [reflexivity | exact IH] |].
  destruct (Js.split sep s) as [|p rest]; [repeat constructor; simpl; now rewrite Ha |].
  inversion IH as [|? ? Hp Hrest]; subst.
  constructor; [simpl; now rewrite Ha | exact Hrest].
Qed.

Example split_examples :
  Js.split ":" "2001:db8::1" = ["2001"; "db8"; ""; "1"]
  /\ Js.split "." "10.0.0.1" = ["10"; "0"; "0"; "1"]
  /\ Js.split "." "" = [""]
  /\ Js.split "." "a." = ["a"; ""]
  /\ Js.join "." ["10"; "0"; "0"; "0"] = "10.0.0.0"
  /\ Js.join "," [] = "".
Proof. repeat split. Qed.

(** [s.slice(0, n)] is a prefix of [s]. *)
Lemma str_slice0_prefix (n : nat) (s : string) :
  exists rest : string, s = Js.str_slice0 n s +:+ rest.
Proof.
  revert s. induction n as [|n IH]; intros s.
  - exists s. now destruct s.
  - destruct s as [|a s]; [now exists "" |].
    destruct (IH s) as [rest Hrest]. exists rest.
    simpl. rewrite append_cons. now rewrite <- Hrest.
Qed.

Lemma str_slice0_length (n : nat) (s : string) :
  n <= String.length s -> String.length (Js.str_slice0 n s) = n.
Proof.
  revert s. induction n as [|n IH]; intros s Hn; [now destruct s |].
  destruct s as [|a s]; simpl in *; [lia |].
  rewrite IH; [reflexivity | lia].
Qed.

(** A string with a separator has at least two pieces. *)
Lemma split_two (sep : ascii) (s : string) :
  Js.includes sep s = true ->
  exists p q rest, Js.split sep s = p :: q :: rest.
Proof.
  induction s as [|a s IH]; simpl; [discriminate |].
  destruct (Ascii.eqb a sep).
  - intros _. pose proof (split_not_nil sep s) as Hnn.
    destruct (Js.split sep s) as [|q rest]; [congruence | eauto].
  - intros H. destruct (IH H) as (p & q & rest & ->). eauto.
Qed.

(** ** The anonymizer *)

(** Every address with a colon is two groups, three groups, or three
    groups and a remainder. *)
Lemma colon_address_shapes (ip : string) :
  Js.includes ":" ip = true ->
  (exists g1 g2, group g1 /\ group g2 /\ ip = g1 +:+ ":" +:+ g2)
  \/ (exists g1 g2 g3, group g1 /\ group g2 /\ group g3
                       /\ ip = g1 +:+ ":" +:+ g2 +:+ ":" +:+ g3)
  \/ (exists g1 g2 g3 rest, group g1 /\ group g2 /\ group g3
                            /\ ip = g1 +:+ ":" +:+ g2 +:+ ":" +:+ g3
                                        +:+ ":" +:+ rest).
Proof.
  intros H. pose proof (join_split ":" ip) as Hj.
  pose proof (split_pieces ":" ip) as Hp.
  destruct (split_two ":" ip H) as (g1 & g2 & rest & Hs). rewrite Hs in Hj, Hp.
  apply Forall_cons in Hp as [H1 Hp]. apply Forall_cons in Hp as [H2 Hp].
  destruct rest as [|g3 rest]; [left; exists g1, g2; now rewrite <- Hj |].
  apply Forall_cons in Hp as [H3 _]. right.
  destruct rest as [|g4 rest].
  - left. exists g1, g2, g3. now rewrite <- Hj.
  - right. exists g1, g2, g3, (Js.join ":" (g4 :: rest)). now rewrite <- Hj.
Qed.

(** Every colon-free string of four dot-separated pieces is four octets
    joined by dots. *)
Lemma dotted_address_shape (ip : string) :
  Js.includes ":" ip = false -> length (Js.split "." ip) = 4 ->
  exists a b c d, octet a /\ octet b /\ octet c /\ octet d
                  /\ ip = a +:+ "." +:+ b +:+ "." +:+ c +:+ "." +:+ d.
Proof.
  intros Hc Hlen. pose proof (join_split "." ip) as Hj.
  pose proof (split_pieces "." ip) as Hp.
  destruct (Js.split "." ip) as [|a [|b [|c [|d [|e rest]]]]]; try discriminate.
  apply Forall_cons in Hp as [Ha Hp]. apply Forall_cons in Hp as [Hb Hp].
  apply Forall_cons in Hp as [Hcc Hp]. apply Forall_cons in Hp as [Hd _].
  change (Js.join "." [a; b; c; d])
    with (a +:+ "." +:+ b +:+ "." +:+ c +:+ "." +:+ d) in Hj.
  rewrite <- Hj in Hc. rewrite !includes_app in Hc.
  apply orb_false_iff in Hc as [Hca Hc]. apply orb_false_iff in Hc as [_ Hc].
  apply orb_false_iff in Hc as [Hcb Hc]. apply orb_false_iff in Hc as [_ Hc].
  apply orb_false_iff in Hc as [Hccc Hc]. apply orb_false_iff in Hc as [_ Hcd].
  exists a, b, c, d. unfold octet. repeat split; auto.
Qed.

Lemma cidr_colon (ip : string) :
  Js.includes ":" ip = true ->
  Anonymizer.anonymize_cidr (Some ip)
  = Some (Js.join ":" (take 3 (Js.split ":" ip)) +:+ "::").
Proof.
  intros H. unfold Anonymizer.anonymize_cidr, Js.arr_slice0.
  destruct ip as [|a ip]; [discriminate |]. simpl String.eqb. cbv iota.
  now rewrite H.
Qed.

Lemma cidr_no_colon (ip : string) :
  String.eqb ip "" = false -> Js.includes ":" ip = false ->
  Anonymizer.anonymize_cidr (Some ip)
  = if negb (Nat.eqb (length (Js.split "." ip)) 4) then Some ip
    else Some (Js.join "." (<[3 := "0"]> (Js.split "." ip))).
Proof.
  intros Hne H. unfold Anonymizer.anonymize_cidr. now rewrite Hne, H.
Qed.

(** C7.  Under policy [cidr]: a four-part dotted address comes back with
    its last part replaced by [0] and the other three untouched; an
    address with a colon comes back as its first three colon-separated
    groups (all of them when there are only two) followed by [::]; any
    other non-empty string comes back unchanged; [null] and the empty
    string give [null].  The anonymizer is a total function, so it is
    deterministic and has no throwing path; every mode string other than
    [none] and [hash] selects it.  The last two parts say that the shapes
    above are all there is: a string with a colon is two groups, three
    groups, or three groups and a remainder, and a colon-free string that
    splits into four at its dots is four octets joined by dots. *)
Theorem anonymize_cidr_spec :
  Anonymizer.anonymize_cidr None = None
  /\ Anonymizer.anonymize_cidr (Some "") = None
  /\ (forall a b c d : string,
        octet a -> octet b -> octet c -> octet d ->
        Anonymizer.anonymize_cidr (Some (a +:+ "." +:+ b +:+ "." +:+ c +:+ "." +:+ d))
        = Some (a +:+ "." +:+ b +:+ "." +:+ c +:+ "." +:+ "0"))
  /\ (forall g1 g2 g3 rest : string,
        group g1 -> group g2 -> group g3 ->
        Anonymizer.anonymize_cidr
          (Some (g1 +:+ ":" +:+ g2 +:+ ":" +:+ g3 +:+ ":" +:+ rest))
        = Some (g1 +:+ ":" +:+ g2 +:+ ":" +:+ g3 +:+ "::"))
  /\ (forall g1 g2 g3 : string,
        group g1 -> group g2 -> group g3 ->
        Anonymizer.anonymize_cidr (Some (g1 +:+ ":" +:+ g2 +:+ ":" +:+ g3))
        = Some (g1 +:+ ":" +:+ g2 +:+ ":" +:+ g3 +:+ "::"))
  /\ (forall g1 g2 : string,
        group g1 -> group g2 ->
        Anonymizer.anonymize_cidr (Some (g1 +:+ ":" +:+ g2))
        = Some (g1 +:+ ":" +:+ g2 +:+ "::"))
  /\ (forall ip : string,
        ip <> "" -> Js.includes ":" ip = false ->
        length (Js.split "." ip) <> 4 ->
        Anonymizer.anonymize_cidr (Some ip) = Some ip)
  /\ (forall mode salt : string,
        mode <> "none" -> mode <> "hash" ->
        Anonymizer.makeAnonymizer mode salt = Anonymizer.anonymize_cidr)
  /\ (forall ip : string,
        Js.includes ":" ip = true ->
        (exists g1 g2, group g1 /\ group g2 /\ ip = g1 +:+ ":" +:+ g2)
        \/ (exists g1 g2 g3, group g1 /\ group g2 /\ group g3
                             /\ ip = g1 +:+ ":" +:+ g2 +:+ ":" +:+ g3)
        \/ (exists g1 g2 g3 rest, group g1 /\ group g2 /\ group g3
                                  /\ ip = g1 +:+ ":" +:+ g2 +:+ ":" +:+ g3
                                              +:+ ":" +:+ rest))
  /\ (forall ip : string,
        Js.includes ":" ip = false -> length (Js.split "." ip) = 4 ->
        exists a b c d, octet a /\ octet b /\ octet c /\ octet d
                        /\ ip = a +:+ "." +:+ b +:+ "." +:+ c +:+ "." +:+ d).
Proof.
  split; [reflexivity |]. split; [reflexivity |].
  split; [| split; [| split; [| split; [| split; [| split; [| split]]]]]];
    [| | | | | | exact colon_address_shapes | exact dotted_address_shape].
  - intros a b c d [Ha Ha'] [Hb Hb'] [Hc Hc'] [Hd Hd'].
    rewrite cidr_no_colon.
    + str_simpl.
      rewrite (split_cons "." a), (split_cons "." b), (split_cons "." c),
        (split_whole "." d) by assumption.
      reflexivity.
    + str_simpl. apply append_sep_not_empty.
    + str_simpl. rewrite !includes_app. simpl.
      rewrite !includes_app. simpl. rewrite !includes_app. simpl.
      now rewrite Ha', Hb', Hc', Hd'.
  - intros g1 g2 g3 rest H1 H2 H3. unfold group in *.
    rewrite cidr_colon by (str_simpl; apply includes_sep).
    str_simpl.
    rewrite (split_cons ":" g1), (split_cons ":" g2), (split_cons ":" g3)
      by assumption.
    simpl. str_norm. reflexivity.
  - intros g1 g2 g3 H1 H2 H3. unfold group in *.
    rewrite cidr_colon by (str_simpl; apply includes_sep).
    str_simpl.
    rewrite (split_cons ":" g1), (split_cons ":" g2), (split_whole ":" g3)
      by assumption.
    simpl. str_norm. reflexivity.
  - intros g1 g2 H1 H2. unfold group in *.
    rewrite cidr_colon by (str_simpl; apply includes_sep).
    str_simpl.
    rewrite (split_cons ":" g1), (split_whole ":" g2) by assumption.
    simpl. str_norm. reflexivity.
  - intros ip Hne Hc Hlen.
    rewrite cidr_no_colon; [| destruct ip; [congruence | reflexivity] | exact Hc].
    destruct (Nat.eqb_spec (length (Js.split "." ip)) 4); [contradiction | reflexivity].
  - intros mode salt Hn Hh. unfold Anonymizer.makeAnonymizer.
    destruct (String.eqb_spec mode "none"); [contradiction |].
    destruct (String.eqb_spec mode "hash"); [contradiction | reflexivity].
Qed.

(** Witness of [anonymize_cidr_spec] on an IPv4 address, three IPv6
    shapes and a host name. *)
Lemma anonymize_cidr_spec_witness :
  Anonymizer.anonymize_cidr (Some "192.168.1.77") = Some "192.168.1.0"
  /\ Anonymizer.anonymize_cidr (Some "2001:db8:85a3:0:0:8a2e:370:7334")
     = Some "2001:db8:85a3::"
  /\ Anonymizer.anonymize_cidr (Some "::1") = Some "::1::"
  /\ Anonymizer.anonymize_cidr (Some "fe80:1") = Some "fe80:1::"
  /\ Anonymizer.anonymize_cidr (Some "localhost") = Some "localhost"
  /\ Anonymizer.makeAnonymizer "cidr" "" = Anonymizer.anonymize_cidr.
Proof.
  destruct anonymize_cidr_spec
    as (_ & _ & H4 & H6 & H3 & H2 & Hother & Hmode & _ & _).
  refine (conj _ (conj _ (conj _ (conj _ (conj _ _))))).
  - exact (H4 "192" "168" "1" "77" (conj eq_refl eq_refl) (conj eq_refl eq_refl)
              (conj eq_refl eq_refl) (conj eq_refl eq_refl)).
  - exact (H6 "2001" "db8" "85a3" "0:0:8a2e:370:7334" eq_refl eq_refl eq_refl).
  - exact (H3 "" "" "1" eq_refl eq_refl eq_refl).
  - exact (H2 "fe80" "1" eq_refl eq_refl).
  - apply (Hother "localhost"); [discriminate | reflexivity | simpl; lia].
  - apply (Hmode "cidr" ""); discriminate.
Defined.

(** *** SHA-256 test vectors (FIPS 180-4 examples and a two-block input) *)

Example sha256_constants :
  length Sha256.K = 64
  /\ take 2 Sha256.K = [0x428a2f98; 0x71374491]%Z
  /\ last Sha256.K = Some 0xc67178f2%Z
  /\ Sha256.ra Sha256.H0 = 0x6a09e667%Z
  /\ Sha256.rh Sha256.H0 = 0x5be0cd19%Z.
Proof. vm_compute. repeat split. Qed.

Example sha256_abc :
  Sha256.hex_digest "abc"
  = "ba7816bf8f01cfea414140de5dae2223b00361a396177a9cb410ff61f20015ad".
Proof. vm_compute. reflexivity. Qed.

Example sha256_empty :
  Sha256.hex_digest ""
  = "e3b0c44298fc1c149afbf4c8996fb92427ae41e4649b934ca495991b7852b855".
Proof. vm_compute. reflexivity. Qed.

Example sha256_two_blocks :
  Sha256.hex_digest "abcdbcdecdefdefgefghfghighijhijkijkljklmklmnlmnomnopnopq"
  = "248d6a61d20638b8e5c026930c3e6039a33ce45964ff2167f6ecedd419db06c1".
Proof. vm_compute. reflexivity. Qed.

Lemma hex_digit_is_hex (d : Z) : is_hex (Sha256.hex_digit d) = true.
Proof.
  unfold Sha256.hex_digit. generalize (Z.to_nat d). intros n.
  do 16 (destruct n as [|n]; [reflexivity |]). reflexivity.
Qed.

Lemma hex_word_length (w : Z) : String.length (Sha256.hex_word w) = 8.
Proof. reflexivity. Qed.

Lemma all_hex_digits (f : Z -> Z) (l : list Z) :
  all_hex (string_of_list_ascii (map (fun i => Sha256.hex_digit (f i)) l))
  = true.
Proof.
  induction l as [|i l IH]; cbn [map string_of_list_ascii all_hex];
    [reflexivity | now rewrite hex_digit_is_hex, IH].
Qed.

Lemma hex_word_all_hex (w : Z) : all_hex (Sha256.hex_word w) = true.
Proof.
  unfold Sha256.hex_word.
  apply (all_hex_digits (fun i => Z.land (Z.shiftr w (4 * i)) 0xf)).
Qed.

Lemma all_hex_app (x y : string) :
  all_hex (x +:+ y) = all_hex x && all_hex y.
Proof.
  induction x as [|a x IH]; str_simpl; [reflexivity |].
  now rewrite IH, andb_assoc.
Qed.

Lemma all_hex_slice (n : nat) (s : string) :
  all_hex s = true -> all_hex (Js.str_slice0 n s) = true.
Proof.
  revert s. induction n as [|n IH]; intros [|a s] H; try reflexivity.
  simpl in *. apply andb_true_iff in H as [Ha Hs].
  now rewrite Ha, IH.
Qed.

(** The digest is always 64 lower-case hex digits. *)
Lemma hex_digest_shape (s : string) :
  String.length (Sha256.hex_digest s) = 64
  /\ all_hex (Sha256.hex_digest s) = true.
Proof.
  unfold Sha256.hex_digest, Sha256.hex_regs. split.
  - now rewrite !append_length, !hex_word_length.
  - now rewrite !all_hex_app, !hex_word_all_hex.
Qed.

(** C8.  Under policy [hash] the anonymizer returns, for a non-empty
    address, the first 16 characters of the hex SHA-256 digest of
    [salt + ip]: a function of salt and address alone, always 16
    lower-case hex digits whatever the length of the input; [null] and the
    empty string give [null]. *)
Theorem anonymize_hash_spec (salt : string) :
  Anonymizer.makeAnonymizer "hash" salt = Anonymizer.anonymize_hash salt
  /\ Anonymizer.anonymize_hash salt None = None
  /\ Anonymizer.anonymize_hash salt (Some "") = None
  /\ (forall ip : string, ip <> "" ->
        exists h rest : string,
          Anonymizer.anonymize_hash salt (Some ip) = Some h
          /\ Sha256.hex_digest (salt +:+ ip) = h +:+ rest
          /\ String.length h = 16
          /\ all_hex h = true).
Proof.
  repeat split.
  intros ip Hne.
  destruct (hex_digest_shape (salt +:+ ip)) as [Hlen Hhex].
  destruct (str_slice0_prefix 16 (Sha256.hex_digest (salt +:+ ip)))
    as [rest Hrest].
  exists (Js.str_slice0 16 (Sha256.hex_digest (salt +:+ ip))), rest.
  split; [| split; [| split]].
  - unfold Anonymizer.anonymize_hash.
    destruct ip; [congruence | reflexivity].
  - exact Hrest.
  - apply str_slice0_length. lia.
  - now apply all_hex_slice.
Qed.

(** Witness of [anonymize_hash_spec] for salt [pepper] and address
    [203.0.113.9]. *)
Lemma anonymize_hash_spec_witness :
  exists h rest : string,
    Anonymizer.anonymize_hash "pepper" (Some "203.0.113.9") = Some h
    /\ Sha256.hex_digest ("pepper" +:+ "203.0.113.9") = h +:+ rest
    /\ String.length h = 16
    /\ all_hex h = true.
Proof.
  destruct (anonymize_hash_spec "pepper") as (_ & _ & _ & H).
  apply (H "203.0.113.9"). discriminate.
Defined.

Example anonymize_hash_example :
  Anonymizer.makeAnonymizer "hash" "pepper" (Some "203.0.113.9")
  = Some "46962367a1308f44".
Proof. vm_compute. reflexivity. Qed.

(** ** The IP columns of a captured record *)

Lemma configure_none (opts : options) :
  opt_anonymizeIp opts = Some "none" ->
  full_ip (configure opts) = true
  /\ anonymizeIp (configure opts) = Anonymizer.anonymize_none.
Proof.
  intros H. unfold configure. simpl. rewrite H. split; reflexivity.
Qed.

Lemma anonymizer_populates (mode salt ip : string) :
  ip <> "" -> exists a, Anonymizer.makeAnonymizer mode salt (Some ip) = Some a.
Proof.
  intros Hne. unfold Anonymizer.makeAnonymizer.
  assert (Hf : String.eqb ip "" = false) by (destruct ip; [congruence | reflexivity]).
  destruct (String.eqb mode "none"); [| destruct (String.eqb mode "hash")].
  - exists ip. unfold Anonymizer.anonymize_none. now rewrite Hf.
  - eexists. unfold Anonymizer.anonymize_hash. now rewrite Hf.
  - unfold Anonymizer.anonymize_cidr. rewrite Hf.
    destruct (Js.includes ":" ip); [eexists; reflexivity |].
    destruct (negb _); eexists; reflexivity.
Qed.

Lemma anonymizer_empty (mode salt : string) :
  Anonymizer.makeAnonymizer mode salt (Some "") = None.
Proof.
  unfold Anonymizer.makeAnonymizer.
  destruct (String.eqb mode "none"); [| destruct (String.eqb mode "hash")];
    reflexivity.
Qed.

(** C1, as the code has it.  In every captured record [ip_cidr] is
    populated exactly when the address is non-empty, whatever the policy.
    Under policy [none] both [ip_cidr] and [ip_full] hold the unmodified
    address (both [null] for an empty address); under every other policy
    [ip_full] is [null] and [ip_cidr] holds the anonymizer's output. *)
Theorem ip_columns_spec (opts : options) (ob : observed) (uid rt : Js.value) :
  let e := make_event (configure opts) ob uid rt in
  populated (ip_cidr e) = negb (String.eqb (ob_ip ob) "")
  /\ (opt_anonymizeIp opts = Some "none" ->
      ip_cidr e = ip_or_null (ob_ip ob) /\ ip_full e = ip_or_null (ob_ip ob))
  /\ (opt_anonymizeIp opts <> Some "none" ->
      ip_full e = Js.Null
      /\ ip_cidr e = of_option (anonymizeIp (configure opts) (Some (ob_ip ob)))).
Proof.
  cbv zeta. split; [| split].
  - unfold make_event, configure. simpl.
    destruct (String.eqb_spec (ob_ip ob) "") as [->|Hne].
    + now rewrite anonymizer_empty.
    + destruct (anonymizer_populates (str_or (opt_anonymizeIp opts) "cidr")
                  (str_or (opt_hashSalt opts) "") (ob_ip ob) Hne) as [a ->].
      reflexivity.
  - intros H. destruct (configure_none opts H) as [Hfull Hanon].
    unfold make_event; cbn [ip_cidr ip_full]. rewrite Hfull, Hanon.
    unfold ip_or_null, Js.or, Anonymizer.anonymize_none. simpl.
    destruct (String.eqb (ob_ip ob) ""); split; reflexivity.
  - intros H. unfold make_event. simpl.
    rewrite bool_decide_eq_false_2 by exact H. split; reflexivity.
Qed.

(** Witness of [ip_columns_spec] under policies [none] and [cidr]. *)
Lemma ip_columns_spec_witness :
  (let e := make_event (configure (sample_options (Some "none") None))
              (sample_observed "203.0.113.9") Js.Null Js.Null in
   ip_cidr e = Js.Str "203.0.113.9" /\ ip_full e = Js.Str "203.0.113.9")
  /\ (let e := make_event (configure (sample_options (Some "cidr") None))
                 (sample_observed "203.0.113.9") Js.Null Js.Null in
      ip_full e = Js.Null /\ ip_cidr e = Js.Str "203.0.113.0").
Proof.
  split.
  - exact (proj1 (proj2 (ip_columns_spec (sample_options (Some "none") None)
                           (sample_observed "203.0.113.9") Js.Null Js.Null))
                 eq_refl).
  - apply (proj2 (proj2 (ip_columns_spec (sample_options (Some "cidr") None)
                           (sample_observed "203.0.113.9") Js.Null Js.Null))).
    discriminate.
Defined.

(** C1 as stated fails: under policy [none] the record of a request from
    203.0.113.9 carries the full address in [ip_cidr] as well as in
    [ip_full], so the anonymized column is populated and the two columns
    are populated together. *)
Lemma ip_columns_none_counterexample :
  ~ (forall (opts : options) (ob : observed) (uid rt : Js.value),
        opt_anonymizeIp opts = Some "none" ->
        let e := make_event (configure opts) ob uid rt in
        populated (ip_cidr e) = false
        /\ (populated (ip_cidr e) && populated (ip_full e) = false)).
Proof.
  intros H.
  specialize (H (sample_options (Some "none") None)
                (sample_observed "203.0.113.9") Js.Null Js.Null eq_refl).
  destruct H as [H _]. vm_compute in H. discriminate H.
Qed.

(** ** The start-up guard *)

Lemma perform_quiet (w : world) (calls : list effect) :
  (forall call, w call = Normal tt) -> perform w calls = (calls, Normal tt).
Proof.
  intros Hw. induction calls as [|call rest IH]; [reflexivity |].
  simpl. now rewrite Hw, IH.
Qed.

(** An exception that ends the sequence was thrown by the last call
    reached. *)
Lemma perform_throw (w : world) (calls : list effect) (message : string) :
  snd (perform w calls) = Throw message ->
  exists call, In call (fst (perform w calls)) /\ w call = Throw message.
Proof.
  induction calls as [|call rest IH]; [discriminate |].
  simpl. destruct (w call) as [u|m] eqn:Hw.
  - destruct (perform w rest) as [reached outcome]. simpl in *.
    intros H. destruct (IH H) as (call' & Hin & Hc). eauto.
  - simpl. intros [= ->]. eauto.
Qed.

(** C10, as the code has it.  When [databaseUrl] is absent or the empty
    string, [enableAnalytics] throws "enableAnalytics: databaseUrl is
    required" having made no call: no pool, no middleware, no timer.
    When it is a non-empty string the guard lets the call through: the
    pool is created on that URL.  If every later call returns, the
    function returns normally, having created the pool, issued the table
    statement, started the interval and installed the middleware, in
    this order; an exception it ends with was thrown by one of the calls
    it reached, not by the guard, and one thrown by the call of the table
    statement ends it before the interval and the middleware. *)
Theorem database_url_guard (w : world) (opts : options) :
  (opt_databaseUrl opts = None \/ opt_databaseUrl opts = Some "" ->
   enableAnalytics w opts
   = ([], Throw "enableAnalytics: databaseUrl is required"))
  /\ (forall url : string,
        opt_databaseUrl opts = Some url -> url <> "" ->
        (exists more, fst (enableAnalytics w opts) = NewPool url :: more)
        /\ ((forall call, w call = Normal tt) ->
            exists more : list effect,
              enableAnalytics w opts
              = ([ NewPool url; EnsureTable (table (configure opts));
                   SetInterval (intervalMs (configure opts)); AppUse ] ++ more,
                 Normal (configure opts)))
        /\ (forall message,
              snd (enableAnalytics w opts) = Throw message ->
              exists call,
                In call (fst (enableAnalytics w opts))
                /\ w call = Throw message)
        /\ (forall message,
              w (NewPool url) = Normal tt ->
              w (EnsureTable (table (configure opts))) = Throw message ->
              enableAnalytics w opts
              = ([NewPool url; EnsureTable (table (configure opts))],
                 Throw message))).
Proof.
  split.
  - intros [H|H]; unfold enableAnalytics; now rewrite H.
  - intros url H Hne.
    assert (Hguard : str_falsy (opt_databaseUrl opts) = false).
    { rewrite H. simpl. destruct (String.eqb_spec url ""); congruence. }
    assert (Hcalls : exists rest,
               enable_effects opts (configure opts)
               = NewPool url :: EnsureTable (table (configure opts))
                   :: SetInterval (intervalMs (configure opts)) :: AppUse
                   :: rest).
    { unfold enable_effects. rewrite H. simpl. eexists. reflexivity. }
    destruct Hcalls as [rest Hcalls].
    unfold enableAnalytics. rewrite Hguard. cbv zeta.
    split; [| split; [| split]].
    + rewrite Hcalls. simpl. destruct (w (NewPool url)); [| eauto].
      destruct (w (EnsureTable _)); [| simpl; eauto].
      destruct (w (SetInterval _)); [| simpl; eauto].
      destruct (w AppUse); [| simpl; eauto].
      destruct (perform w rest) as [reached [u|m]]; simpl; eauto.
    + intros Hw. rewrite (perform_quiet w _ Hw), Hcalls.
      exists rest. reflexivity.
    + intros message.
      pose proof (perform_throw w (enable_effects opts (configure opts)) message)
        as Hthrow.
      destruct (perform w (enable_effects opts (configure opts)))
        as [reached [u|m]]; simpl in *; [discriminate |].
      intros [= ->]. now apply Hthrow.
    + intros message Hpool Hensure. rewrite Hcalls. cbn [perform].
      now rewrite Hpool, Hensure.
Qed.

(** Witness of [database_url_guard]: no options at all; the options of
    the README in a quiet environment; the same options when the call of
    the table statement throws. *)
Lemma database_url_guard_witness :
  enableAnalytics quiet (Options None None None None None None false)
  = ([], Throw "enableAnalytics: databaseUrl is required")
  /\ (exists more : list effect,
        enableAnalytics quiet (sample_options (Some "none") None)
        = ([ NewPool "postgres://localhost/app";
             EnsureTable "web_analytics_events"; SetInterval 2000; AppUse ]
             ++ more,
           Normal (configure (sample_options (Some "none") None))))
  /\ enableAnalytics (refusing "Invalid URL") (sample_options (Some "none") None)
     = ([ NewPool "postgres://localhost/app";
          EnsureTable "web_analytics_events" ],
        Throw "Invalid URL").
Proof.
  refine (conj _ (conj _ _)).
  - apply (proj1 (database_url_guard quiet
                    (Options None None None None None None false))).
    left. reflexivity.
  - destruct (proj2 (database_url_guard quiet (sample_options (Some "none") None))
                    "postgres://localhost/app" eq_refl ltac:(discriminate))
      as (_ & Hquiet & _).
    apply Hquiet. reflexivity.
  - destruct (proj2 (database_url_guard (refusing "Invalid URL")
                       (sample_options (Some "none") None))
                    "postgres://localhost/app" eq_refl ltac:(discriminate))
      as (_ & _ & _ & Hensure).
    apply Hensure; reflexivity.
Defined.

(** C10 as stated fails in its second half: a [databaseUrl] that is
    present but empty makes the guard throw, in an environment where no
    call throws. *)
Lemma database_url_present_counterexample :
  ~ (forall opts : options,
        is_Some (opt_databaseUrl opts) ->
        forall message : string,
          snd (enableAnalytics quiet opts) <> Throw message).
Proof.
  intros H.
  apply (H (Options None None None None None (Some "") false)
           (ex_intro _ "" eq_refl)
           "enableAnalytics: databaseUrl is required").
  reflexivity.
Qed.

(** ** The batch inserter *)

Lemma drain_cases (c : config) (s : core) :
  ((draining s = true \/ queue s = []) /\ drain c s = s)
  \/ (draining s = false /\ queue s <> [] /\ drain c s = flushing c s).
Proof.
  unfold drain. destruct (draining s) eqn:Hd; simpl; [left; auto |].
  destruct (queue s) as [|e q] eqn:Hq; simpl; [left; auto |].
  right. repeat split; [discriminate |].
  unfold flushing, removed_count, Js.splice0. simpl. now rewrite Hq.
Qed.

Lemma drain_suppressed (c : config) (s : core) :
  draining s = true -> drain c s = s.
Proof. intros H. unfold drain. now rewrite H. Qed.


Lemma drain_history (c : config) (s : core) : history (drain c s) = history s.
Proof.
  destruct (drain_cases c s) as [[_ ->]|(_ & _ & ->)]; [reflexivity |].
  unfold history, flushing. simpl.
  rewrite map_app, concat_app. simpl. rewrite app_nil_r, <- app_assoc.
  unfold insert_query. destruct (fold_left _ _ _) as [[values ps] n]. simpl.
  now rewrite take_drop.
Qed.

Lemma drain_consistent (c : config) (s : core) :
  consistent s -> consistent (drain c s).
Proof.
  intros Hs. destruct (drain_cases c s) as [[_ ->]|(Hd & _ & ->)]; [exact Hs |].
  destruct Hs as [Ht [[_ Hi]|[Hd' _]]]; [| congruence].
  split; [exact Ht |]. right. unfold flushing. simpl. rewrite Hi.
  split; [reflexivity | eexists; reflexivity].
Qed.

(** The handler either leaves the state alone or appends one record and
    then tests the size threshold. *)
Lemma finish_cases (c : config) (ob : observed) (s : core) :
  (enqueued c (Finish ob) = [] /\ step c (Finish ob) s = (Normal tt, s))
  \/ (exists e,
        enqueued c (Finish ob) = [e]
        /\ step c (Finish ob) s
           = (Normal tt,
              let s1 := set_queue (queue s ++ [e]) s in
              if (batchSize c <=? Z.of_nat (length (queue s1)))%Z
              then drain c s1 else s1)).
Proof.
  unfold step, on_finish, capture, try_catch, bind, lift, update, ret, enqueued.
  destruct (ob_sample ob) as [sampled|m]; [| left; auto].
  destruct (Js.truthy sampled); simpl.
  - destruct (ob_user_id ob) as [uid|m]; [| left; auto].
    destruct (ob_route ob) as [rt|m]; [| left; auto].
    right. eexists. split; reflexivity.
  - left. split; [| reflexivity].
    destruct (ob_user_id ob), (ob_route ob); reflexivity.
Qed.

(** No timer tick, finished response or settlement lets an exception
    reach the host. *)
Lemma step_raises (c : config) (l : label) (s : core) :
  is_stop l = false -> fst (step c l s) = Normal tt.
Proof.
  destruct l as [|ob|i r|]; intros Hl.
  - reflexivity.
  - destruct (finish_cases c ob s) as [[_ ->]|(e & _ & ->)]; reflexivity.
  - simpl. destruct (inflight s !! i); [| reflexivity].
    destruct r as [[]|m]; reflexivity.
  - discriminate.
Qed.

(** A call to [stop()] leaves the state it would leave on a first call,
    also when it is refused. *)
Lemma next_stop (c : config) (s : core) : next c s Stop = end_pool s.
Proof.
  unfold next. simpl. destruct (pool_ended s) eqn:He; [| reflexivity].
  destruct s. simpl in *. now subst.
Qed.

Lemma run_cons (c : config) (l : label) (trace : list label) (s : core) :
  snd (run c (l :: trace) s) = snd (run c trace (next c s l)).
Proof.
  simpl. unfold next. destruct (step c l s) as [[u|m] s1]; reflexivity.
Qed.

Lemma run_quiet (c : config) (trace : list label) (s : core) :
  forallb (fun l => negb (is_stop l)) trace = true ->
  fst (run c trace s) = Normal tt.
Proof.
  revert s. induction trace as [|l trace IH]; intros s H; [reflexivity |].
  simpl in H. apply andb_true_iff in H as [Hl H].
  apply negb_true_iff in Hl. pose proof (step_raises c l s Hl) as Hs.
  simpl. destruct (step c l s) as [[u|m] s1]; [now apply IH | discriminate].
Qed.

Lemma run_app (c : config) (t1 t2 : list label) (s : core) :
  snd (run c (t1 ++ t2) s) = snd (run c t2 (snd (run c t1 s))).
Proof.
  revert s. induction t1 as [|l t1 IH]; intros s; [reflexivity |].
  rewrite <- app_comm_cons, !run_cons. apply IH.
Qed.

Lemma after_snoc (c : config) (trace : list label) (l : label) :
  after c (trace ++ [l]) = next c (after c trace) l.
Proof.
  unfold after. now rewrite run_app, run_cons.
Qed.

Lemma next_consistent (c : config) (s : core) (l : label) :
  consistent s -> consistent (next c s l).
Proof.
  intros Hs. unfold next. destruct l as [|ob|i r|].
  - simpl. destruct Hs as [Ht Hs]. rewrite Ht. apply drain_consistent.
    now split.
  - destruct (finish_cases c ob s) as [[_ ->]|(e & _ & ->)]; [exact Hs |].
    simpl. destruct (_ <=? _)%Z; [apply drain_consistent |]; exact Hs.
  - simpl. destruct (inflight s !! i) as [q|] eqn:Hq; [| exact Hs].
    destruct Hs as [Ht [[_ Hi]|[_ [q' Hi]]]]; rewrite Hi in Hq.
    + now rewrite lookup_nil in Hq.
    + destruct i as [|i]; [| now simpl in Hq; rewrite lookup_nil in Hq].
      split; [destruct r as [[]|m]; exact Ht |]. left.
      destruct r as [[]|m]; simpl; rewrite Hi; split; reflexivity.
  - change (snd (step c Stop s)) with (next c s Stop). rewrite next_stop.
    exact Hs.
Qed.

Lemma after_consistent (c : config) (trace : list label) :
  consistent (after c trace).
Proof.
  induction trace as [|l trace IH] using rev_ind.
  - split; [reflexivity | left; split; reflexivity].
  - rewrite after_snoc. now apply next_consistent.
Qed.

Lemma next_history (c : config) (s : core) (l : label) :
  history (next c s l) = history s ++ enqueued c l.
Proof.
  unfold next. destruct l as [|ob|i r|].
  - simpl. rewrite app_nil_r. destruct (timer s); [apply drain_history | reflexivity].
  - destruct (finish_cases c ob s) as [[-> ->]|(e & -> & ->)];
      [now rewrite app_nil_r |].
    simpl. destruct (_ <=? _)%Z; [rewrite drain_history |];
      unfold history; simpl; now rewrite app_assoc.
  - simpl. rewrite app_nil_r.
    destruct (inflight s !! i); [| reflexivity].
    destruct r as [[]|m]; reflexivity.
  - change (snd (step c Stop s)) with (next c s Stop). rewrite next_stop.
    simpl. now rewrite app_nil_r.
Qed.

Lemma run_history (c : config) (trace : list label) (s : core) :
  history (snd (run c trace s)) = history s ++ concat (map (enqueued c) trace).
Proof.
  revert s. induction trace as [|l trace IH]; intros s.
  - simpl. now rewrite app_nil_r.
  - rewrite run_cons, IH, next_history. simpl. now rewrite app_assoc.
Qed.

(** The list of inserts only grows. *)
Lemma next_sent (c : config) (s : core) (l : label) :
  exists later, sent (next c s l) = sent s ++ later.
Proof.
  assert (Hdrain : forall s0, exists later, sent (drain c s0) = sent s0 ++ later).
  { intros s0. destruct (drain_cases c s0) as [[_ ->]|(_ & _ & ->)].
    - exists []. now rewrite app_nil_r.
    - eexists. reflexivity. }
  unfold next. destruct l as [|ob|i r|].
  - simpl. destruct (timer s); [apply Hdrain | exists []; now rewrite app_nil_r].
  - destruct (finish_cases c ob s) as [[_ ->]|(e & _ & ->)];
      [exists []; now rewrite app_nil_r |].
    simpl. destruct (_ <=? _)%Z;
      [apply (Hdrain (set_queue (queue s ++ [e]) s))
      | exists []; simpl; now rewrite app_nil_r].
  - simpl. destruct (inflight s !! i); [| exists []; now rewrite app_nil_r].
    destruct r as [[]|m]; exists []; simpl; now rewrite app_nil_r.
  - change (snd (step c Stop s)) with (next c s Stop). rewrite next_stop.
    exists []. simpl. now rewrite app_nil_r.
Qed.

Lemma run_sent (c : config) (trace : list label) (s : core) :
  exists later, sent (snd (run c trace s)) = sent s ++ later.
Proof.
  revert s. induction trace as [|l trace IH]; intros s.
  - exists []. simpl. now rewrite app_nil_r.
  - rewrite run_cons. destruct (IH (next c s l)) as [l2 ->].
    destruct (next_sent c s l) as [l1 ->].
    exists (l1 ++ l2). now rewrite app_assoc.
Qed.

(** *** The statement [drain] builds *)

Lemma push_rows (items : list event) (values : list string)
    (ps : list Js.value) (i : nat) :
  fold_left push_row items (values, ps, i)
  = (values ++ map (fun j => row_tuple (i + 11 * j)) (seq 0 (length items)),
     ps ++ concat (map row_params items),
     i + 11 * length items).
Proof.
  revert values ps i. induction items as [|e items IH]; intros values ps i.
  - simpl. rewrite !app_nil_r. do 2 f_equal. lia.
  - cbn [fold_left push_row length]. rewrite IH.
    cbn [seq map concat]. rewrite <- seq_shift, map_map, <- !app_assoc.
    replace (i + 11 * 0) with i by lia.
    f_equal; [| lia]. do 2 f_equal. simpl. f_equal.
    apply map_ext. intros j. f_equal. lia.
Qed.

Example row_tuple_examples :
  row_tuple 1 = "($1,$2,$3,$4,$5,$6,$7,$8,$9,$10,$11)"
  /\ row_tuple 12 = "($12,$13,$14,$15,$16,$17,$18,$19,$20,$21,$22)".
Proof. split; vm_compute; reflexivity. Qed.

(** One tuple and eleven parameters per record, placeholders numbered
    from 1 without gaps, records in queue order. *)
Lemma insert_query_shape (c : config) (items : list event) :
  let q := insert_query c items in
  batch q = items
  /\ tuples q = map (fun j => row_tuple (1 + 11 * j)) (seq 0 (length items))
  /\ params q = concat (map row_params items)
  /\ sql q = insert_sql (table c) (tuples q)
  /\ length (tuples q) = length items
  /\ length (params q) = 11 * length items.
Proof.
  unfold insert_query. rewrite push_rows. simpl.
  repeat split.
  - now rewrite length_map, length_seq.
  - induction items as [|e items IH]; [reflexivity |].
    simpl in *. rewrite IH. lia.
Qed.



(** *** One flush at a time *)

(** C4.  In every state the closure can reach, at most one insert is
    pending, and the flag is raised exactly while one is.  While it is
    raised a timer tick changes nothing and a finished response only
    appends its record: no statement is issued, nothing is remembered of
    the trigger.  When the pending insert settles, fulfilled or rejected,
    the flag is lowered and nothing is pending, so that the next tick on a
    non-empty queue issues a statement again.  The batches handed to the
    pool so far, put end to end and followed by the queue, are the records
    in the order they were enqueued: each flush took the segment that
    starts where the previous one ended. *)
Theorem one_flush_in_flight (c : config) (trace : list label) :
  let s := after c trace in
  length (inflight s) <= 1
  /\ draining s = negb (Nat.eqb (length (inflight s)) 0)
  /\ (draining s = true ->
      next c s Tick = s
      /\ forall ob, next c s (Finish ob)
                    = set_queue (queue s ++ enqueued c (Finish ob)) s)
  /\ (forall i outcome,
        i < length (inflight s) ->
        let s1 := next c s (Settle i outcome) in
        draining s1 = false /\ inflight s1 = []
        /\ queue s1 = queue s /\ sent s1 = sent s
        /\ (queue s <> [] ->
            let s2 := next c s1 Tick in
            draining s2 = true /\ exists q, sent s2 = sent s1 ++ [q]
                                          /\ inflight s2 = [q]))
  /\ concat (map batch (sent s)) ++ queue s = concat (map (enqueued c) trace).
Proof.
  intros s.
  pose proof (after_consistent c trace) as Hcons. fold s in Hcons.
  split; [| split; [| split; [| split]]].
  - destruct Hcons as [_ [[_ ->]|[_ [q ->]]]]; simpl; lia.
  - destruct Hcons as [_ [[-> ->]|[-> [q ->]]]]; reflexivity.
  - intros Hd. split.
    + unfold next. simpl. destruct (timer s); [now rewrite drain_suppressed | reflexivity].
    + intros ob. unfold next.
      destruct (finish_cases c ob s) as [[-> ->]|(e & -> & ->)]; simpl.
      * rewrite app_nil_r. now destruct s.
      * destruct (_ <=? _)%Z; [now rewrite drain_suppressed | reflexivity].
  - intros i outcome Hi s1.
    destruct Hcons as [Ht [[_ Hin]|[_ [q Hin]]]];
      [rewrite Hin in Hi; simpl in Hi; lia |].
    assert (i = 0) as -> by (rewrite Hin in Hi; simpl in Hi; lia).
    assert (Hs1 : s1 = set_draining false
                         (match outcome with
                          | Normal _ => store_rows (batch q)
                          | Throw m =>
                              console_error ["[analytics] batch insert failed:"; m]
                          end (set_inflight [] s))).
    { unfold s1, next. simpl. rewrite Hin. simpl.
      destruct outcome as [[]|m]; reflexivity. }
    assert (Hfields : draining s1 = false /\ inflight s1 = []
                      /\ queue s1 = queue s /\ sent s1 = sent s
                      /\ timer s1 = true).
    { rewrite Hs1. destruct outcome as [[]|m]; simpl; auto. }
    destruct Hfields as (Hd1 & Hi1 & Hq1 & Hs1' & Ht1).
    repeat (split; [assumption |]).
    intros Hne s2. unfold s2, next. simpl. rewrite Ht1.
    destruct (drain_cases c s1) as [[[H|H] _]|(_ & _ & ->)]; [congruence.. |].
    unfold flushing. simpl. rewrite Hi1.
    split; [reflexivity |]. eexists. split; reflexivity.
  - change (history (snd (run c trace boot)) = concat (map (enqueued c) trace)).
    now rewrite run_history.
Qed.

(** Witness of [one_flush_in_flight]: with a batch size of one, the first
    finished response starts a flush; the second response and a tick are
    suppressed; the settlement frees the flag and the next tick flushes
    the second record. *)
Lemma one_flush_in_flight_witness :
  let c := configure (sample_options None (Some 1%Z)) in
  let a := Finish (sample_observed "198.51.100.1") in
  let b := Finish (sample_observed "198.51.100.2") in
  let s := after c [a; b] in
  next c s Tick = s
  /\ length (sent (next c (next c s (Settle 0 (Throw "connection lost"))) Tick))
     = 2.
Proof.
  intros c a b s.
  destruct (one_flush_in_flight c [a; b]) as (_ & _ & Hsup & Hset & _).
  fold s in Hsup, Hset.
  split.
  - apply Hsup. reflexivity.
  - destruct (Hset 0 (Throw "connection lost")) as (_ & _ & _ & Hsent & Hnext);
      [vm_compute; lia |].
    destruct Hnext as (_ & q & Hq & _); [discriminate |].
    rewrite Hq, length_app, Hsent. reflexivity.
Defined.

(** *** A failed insert *)

(** C5.  When the pending insert is rejected, no exception reaches the
    host, the failure is written to the console, the flag is lowered and
    nothing else changes: the queue keeps what it held, no statement is
    issued, no row is stored.  Afterwards no timer tick, finished
    response or settlement lets an exception reach the host either;
    whatever happens, every captured record is enqueued, and the
    statements issued later carry exactly the records that were still
    queued at the failure and those captured after it, each once and in
    order: the failed batch is never sent again. *)
Theorem failed_insert_dropped (c : config) (trace : list label) (i : nat)
    (q : flush) (message : string) :
  let s := after c trace in
  inflight s !! i = Some q ->
  let s' := next c s (Settle i (Throw message)) in
  fst (step c (Settle i (Throw message)) s) = Normal tt
  /\ queue s' = queue s
  /\ sent s' = sent s
  /\ stored s' = stored s
  /\ inflight s' = []
  /\ draining s' = false
  /\ errors s' = errors s ++ [["[analytics] batch insert failed:"; message]]
  /\ forall future : list label,
       (forallb (fun l => negb (is_stop l)) future = true ->
        fst (run c future s') = Normal tt)
       /\ exists later : list flush,
            sent (snd (run c future s')) = sent s ++ later
            /\ concat (map batch later) ++ queue (snd (run c future s'))
               = queue s ++ concat (map (enqueued c) future).
Proof.
  intros s Hq s'.
  pose proof (after_consistent c trace) as Hcons. fold s in Hcons.
  assert (Hs' : s' = set_draining false
                       (console_error ["[analytics] batch insert failed:"; message]
                          (set_inflight (delete i (inflight s)) s))).
  { unfold s', next. simpl. now rewrite Hq. }
  assert (Hin : delete i (inflight s) = []).
  { destruct Hcons as [_ [[_ H]|[_ [q' H]]]]; rewrite H in Hq |- *.
    - now rewrite lookup_nil in Hq.
    - destruct i; [reflexivity | now simpl in Hq; rewrite lookup_nil in Hq]. }
  split; [now apply step_raises |].
  rewrite Hs'. simpl. rewrite Hin.
  repeat (split; [reflexivity |]).
  intros future. split; [apply run_quiet |].
  set (s1 := set_draining false _).
  destruct (run_sent c future s1) as [later Hlater].
  exists later. split; [exact Hlater |].
  pose proof (run_history c future s1) as Hh.
  unfold history in Hh. rewrite Hlater in Hh.
  change (sent s1) with (sent s) in Hh. change (queue s1) with (queue s) in Hh.
  rewrite map_app, concat_app, <- !app_assoc in Hh.
  now apply app_inv_head in Hh.
Qed.

(** Witness of [failed_insert_dropped]: the first flush fails, a second
    record arrives, the next tick sends the second record alone. *)
Lemma failed_insert_dropped_witness :
  let c := configure (sample_options None (Some 1%Z)) in
  let a := Finish (sample_observed "198.51.100.1") in
  let b := Finish (sample_observed "198.51.100.2") in
  let s' := next c (after c [a]) (Settle 0 (Throw "connection lost")) in
  queue s' = [] /\ stored s' = []
  /\ errors s' = [["[analytics] batch insert failed:"; "connection lost"]]
  /\ fst (run c [b; Tick] s') = Normal tt
  /\ exists later : list flush,
       sent (snd (run c [b; Tick] s')) = sent (after c [a]) ++ later
       /\ concat (map batch later) ++ queue (snd (run c [b; Tick] s'))
          = enqueued c b.
Proof.
  intros c a b s'.
  destruct (failed_insert_dropped c [a] 0
              (insert_query c (enqueued c a)) "connection lost" eq_refl)
    as (_ & Hq & _ & Hst & _ & _ & He & Hfut).
  destruct (Hfut [b; Tick]) as (Hquiet & later & H1 & H2).
  refine (conj Hq (conj Hst (conj He (conj (Hquiet eq_refl) _)))).
  exists later. split; [exact H1 | exact H2].
Defined.

(** *** [stop()] *)

(** C3, as the code has it.  [stop()] ends the pool and changes nothing
    else: it issues no final statement, leaves the queue as it is and
    leaves the interval live, in this state and in every later one.  A
    tick after [stop()] still runs [drain], which on a non-empty queue
    with no insert pending removes a batch and hands a statement to the
    pool. *)
Theorem stop_keeps_timer (c : config) (trace : list label) :
  let s := after c trace in
  let s' := next c s Stop in
  s' = end_pool s
  /\ queue s' = queue s /\ sent s' = sent s /\ draining s' = draining s
  /\ timer s' = true
  /\ (forall future : list label,
        timer (after c (trace ++ Stop :: future)) = true)
  /\ next c s' Tick = drain c s'
  /\ (draining s = false -> queue s <> [] ->
      sent (next c s' Tick)
      = sent s ++ [insert_query c
                     (take (removed_count c (length (queue s))) (queue s))]
        /\ queue (next c s' Tick)
           = drop (removed_count c (length (queue s))) (queue s)).
Proof.
  intros s s'.
  destruct (after_consistent c trace) as [Ht _]. fold s in Ht.
  assert (Hs' : s' = end_pool s) by apply next_stop.
  split; [exact Hs' |]. rewrite Hs'.
  do 3 (split; [reflexivity |]).
  split; [exact Ht |].
  split; [intros future; apply after_consistent |].
  assert (Htick : next c (end_pool s) Tick = drain c (end_pool s)).
  { unfold next. simpl. now rewrite Ht. }
  split; [exact Htick |].
  intros Hd Hne. rewrite Htick.
  destruct (drain_cases c (end_pool s)) as [[[H|H] _]|(_ & _ & ->)];
    [simpl in H; congruence.. |].
  split; reflexivity.
Qed.

(** Witness of [stop_keeps_timer]: one record is queued, the host calls
    [stop()], the interval fires. *)
Lemma stop_keeps_timer_witness :
  let c := configure (sample_options None None) in
  let a := Finish (sample_observed "198.51.100.1") in
  sent (after c [a; Stop]) = []
  /\ sent (next c (after c [a; Stop]) Tick)
     = [insert_query c (enqueued c a)]
  /\ queue (next c (after c [a; Stop]) Tick) = [].
Proof.
  intros c a.
  destruct (stop_keeps_timer c [a]) as (_ & _ & Hsent & _ & _ & _ & _ & Htick).
  split; [exact Hsent |].
  apply Htick; [reflexivity | discriminate].
Defined.

(** C3 as stated fails: after [stop()] a tick still triggers a flush.
    With one record queued, the statements issued up to [stop()] and
    those issued up to the tick that follows it differ. *)
Lemma stop_halts_timer_counterexample :
  ~ (forall (c : config) (trace : list label),
        sent (after c (trace ++ [Stop; Tick]))
        = sent (after c (trace ++ [Stop]))).
Proof.
  intros H.
  specialize (H (configure (sample_options None None))
                [Finish (sample_observed "198.51.100.1")]).
  apply (f_equal (@length flush)) in H. vm_compute in H. discriminate H.
Qed.

(** ** The dashboard *)

(** C2, as the code has it.  The traffic endpoint calls the pool once.
    The statement text depends on the table name only; the bucket is
    bound to [$1] and the window to [$2].  A missing or empty bucket
    becomes [hour]; any other string is bound as it came, without a test
    against a list of granularities.  The reply is the rows when the
    store answers and status 500 with the store's message when it
    rejects. *)
Theorem traffic_bucket_bound (c : config) (db : store)
    (q_window q_bucket : Js.value) :
  let bucket := Js.or q_bucket (Js.Str "hour") in
  let window := Js.or q_window (Js.Str "24 hours") in
  fst (api_traffic c db q_window q_bucket)
  = [(traffic_sql (table c), [bucket; window])]
  /\ (q_bucket = Js.Undefined \/ q_bucket = Js.Str "" -> bucket = Js.Str "hour")
  /\ (forall g : string, g <> "" -> q_bucket = Js.Str g -> bucket = Js.Str g)
  /\ (forall rows, db (traffic_sql (table c)) [bucket; window] = Normal rows ->
                   snd (api_traffic c db q_window q_bucket) = Json rows)
  /\ (forall message,
        db (traffic_sql (table c)) [bucket; window] = Throw message ->
        snd (api_traffic c db q_window q_bucket) = Failed 500 message).
Proof.
  intros bucket window. split; [reflexivity |].
  split; [intros [->| ->]; reflexivity |].
  split.
  - intros g Hg ->. unfold bucket, Js.or. simpl.
    destruct (String.eqb_spec g ""); [contradiction | reflexivity].
  - split; intros r Hr; unfold api_traffic; simpl;
      fold bucket window; now rewrite Hr.
Qed.

(** Witness of [traffic_bucket_bound] on the scenario of the
    specification, against a store that rejects the statement. *)
Lemma traffic_bucket_bound_witness :
  let c := configure (sample_options None None) in
  fst (api_traffic c rejecting_store (Js.Str "1 hour") (Js.Str "invalid"))
  = [(traffic_sql "web_analytics_events", [Js.Str "invalid"; Js.Str "1 hour"])]
  /\ snd (api_traffic c rejecting_store (Js.Str "1 hour") (Js.Str "invalid"))
     = Failed 500 "invalid input syntax".
Proof.
  intros c.
  destruct (traffic_bucket_bound c rejecting_store (Js.Str "1 hour")
              (Js.Str "invalid")) as (Hcall & _ & _ & _ & Hfail).
  split; [exact Hcall |].
  apply Hfail. reflexivity.
Defined.

(** C2 as stated fails: no list of granularities that leaves out
    [invalid] is enforced, because the bucket [invalid] reaches the pool
    as the first parameter of the statement. *)
Lemma traffic_bucket_counterexample :
  ~ (exists allowed : list string,
        ~ In "invalid" allowed /\ bucket_checked allowed).
Proof.
  intros (allowed & Hout & Hchk).
  destruct (Hchk (configure (sample_options None None)) rejecting_store
              (Js.Str "1 hour") (Js.Str "invalid")
              (traffic_sql "web_analytics_events")
              [Js.Str "invalid"; Js.Str "1 hour"])
    as (g & Hg & Hin).
  - left. reflexivity.
  - simpl in Hg. injection Hg as <-. contradiction.
Qed.

(** *** Top routes *)

#[local] Instance count_desc_transitive : Transitive count_desc.
Proof. intros x y z. unfold count_desc. lia. Qed.

#[local] Instance count_desc_total : Total count_desc.
Proof. intros x y. unfold count_desc. lia. Qed.

(** [COUNT( * )] of a group is the number of its rows; there is no group
    without rows. *)
Lemma group_count_lookup (rows : list table_row) (k : string) :
  group_count rows !! k
  = let n := length (List.filter (of_route k) rows) in
    if Nat.eqb n 0 then None else Some n.
Proof.
  induction rows as [|r rows IH]; [reflexivity |].
  cbn [group_count foldr List.filter]. fold (group_count rows).
  destruct (col_route r) as [k'|] eqn:Hr.
  - destruct (decide (k' = k)) as [->|Hne].
    + assert (Ho : of_route k r = true)
        by (unfold of_route; rewrite Hr; now apply bool_decide_eq_true_2).
      rewrite Ho, lookup_insert_eq, IH. cbv zeta. simpl length.
      now destruct (length (List.filter (of_route k) rows)).
    + assert (Ho : of_route k r = false)
        by (unfold of_route; rewrite Hr; apply bool_decide_eq_false_2; congruence).
      rewrite Ho, lookup_insert_ne, IH by exact Hne. reflexivity.
  - assert (Ho : of_route k r = false)
      by (unfold of_route; rewrite Hr; now apply bool_decide_eq_false_2).
    rewrite Ho. exact IH.
Qed.

Lemma hits_filter (now : Z) (tbl : list table_row) (k : string) :
  hits now tbl k
  = length (List.filter (of_route k) (List.filter (selected now) tbl)).
Proof.
  unfold hits. induction tbl as [|r tbl IH]; [reflexivity |].
  cbn [List.filter]. destruct (selected now r); simpl.
  - fold (of_route k r). destruct (of_route k r); simpl; now rewrite IH.
  - exact IH.
Qed.

Lemma group_count_hits (now : Z) (tbl : list table_row) (k : string) (n : nat) :
  group_count (List.filter (selected now) tbl) !! k = Some n
  <-> n = hits now tbl k /\ 0 < n.
Proof.
  rewrite group_count_lookup, hits_filter. cbv zeta.
  destruct (length _) as [|m]; simpl; split.
  - discriminate.
  - intros [-> H]. lia.
  - intros [= <-]. split; [reflexivity | lia].
  - intros [-> _]. reflexivity.
Qed.

Lemma group_count_dom (rows : list table_row) :
  dom (group_count rows) = list_to_set (omap col_route rows).
Proof.
  induction rows as [|r rows IH]; [apply dom_empty_L |].
  cbn [group_count foldr]. fold (group_count rows).
  change (omap col_route (r :: rows))
    with (match col_route r with
          | Some k => k :: omap col_route rows
          | None => omap col_route rows
          end).
  destruct (col_route r) as [k|]; [| exact IH].
  now rewrite dom_insert_L, list_to_set_cons, IH.
Qed.

(** C9.  The statement of the top-routes endpoint answers with one row
    per route: each row pairs a route with the number of table rows of
    the last 24 hours that carry it, a number that is never zero; [NULL]
    routes and older rows are not counted.  The rows come in descending
    order of count, there are [min(50, distinct routes)] of them, in
    particular exactly 50 when the window holds 60 distinct routes, and a
    route left out has a count no greater than any listed one.  The
    endpoint hands this statement to the pool without parameters and
    replies with the rows. *)
Theorem top_routes_spec (now : Z) (tbl : list table_row) :
  let rows := top_routes now tbl in
  (forall k n, (k, n) ∈ rows -> n = hits now tbl k /\ 0 < n)
  /\ NoDup (map fst rows)
  /\ StronglySorted count_desc rows
  /\ length rows = Nat.min 50 (size (routes_in_window now tbl))
  /\ (size (routes_in_window now tbl) = 60 -> length rows = 50)
  /\ (forall k, 0 < hits now tbl k -> k ∉ map fst rows ->
                forall k' n', (k', n') ∈ rows -> hits now tbl k <= n')
  /\ (forall c : config,
        api_top_routes c (postgres c now tbl)
        = ([(top_routes_sql (table c), [])], Json (map as_row rows))).
Proof.
  intros rows.
  set (m := group_count (List.filter (selected now) tbl)).
  set (sorted := merge_sort count_desc (map_to_list m)).
  assert (Hrows : rows = take 50 sorted) by reflexivity.
  assert (Hperm : sorted ≡ₚ map_to_list m) by apply merge_sort_Permutation.
  assert (Hsorted : StronglySorted count_desc sorted)
    by (apply StronglySorted_merge_sort; apply _).
  assert (Hin : forall k n, (k, n) ∈ sorted <-> n = hits now tbl k /\ 0 < n).
  { intros k n. rewrite Hperm, elem_of_map_to_list. apply group_count_hits. }
  assert (Hlen : length rows = Nat.min 50 (size (routes_in_window now tbl))).
  { rewrite Hrows, length_take, Hperm, length_map_to_list.
    unfold routes_in_window. rewrite <- group_count_dom. fold m.
    now rewrite size_dom. }
  split; [| split; [| split; [| split; [| split; [| split]]]]].
  - intros k n Hk. apply Hin. rewrite Hrows in Hk.
    apply elem_of_take in Hk as (i & Hi & _).
    apply list_elem_of_lookup. eauto.
  - rewrite Hrows.
    assert (Hsub : map fst (take 50 sorted) `sublist_of` map fst sorted)
      by (apply (fmap_sublist fst); apply sublist_take).
    assert (Hnd : NoDup (map fst sorted)).
    { change (NoDup (sorted.*1)). rewrite Hperm. apply NoDup_fst_map_to_list. }
    now apply (sublist_NoDup (map fst (take 50 sorted)) (map fst sorted)).
  - rewrite Hrows. apply (StronglySorted_app_1_l _ _ (drop 50 sorted)).
    now rewrite take_drop.
  - exact Hlen.
  - intros H. rewrite Hlen, H. reflexivity.
  - intros k Hpos Hout k' n' Hk'.
    assert (Hk : (k, hits now tbl k) ∈ sorted) by (apply Hin; auto).
    rewrite <- (take_drop 50 sorted), elem_of_app in Hk.
    destruct Hk as [Hk|Hk].
    + exfalso. apply Hout. rewrite Hrows.
      change k with (fst (k, hits now tbl k)). now apply list_elem_of_fmap_2.
    + rewrite <- (take_drop 50 sorted) in Hsorted.
      rewrite Hrows in Hk'.
      exact (StronglySorted_app_1_elem_of count_desc _ _ _ _ Hsorted Hk' Hk).
  - intros c. unfold api_top_routes, postgres.
    now rewrite String.eqb_refl.
Qed.

(** Witness of [top_routes_spec]: sixty distinct routes give fifty rows,
    the ten routes seen twice first. *)
Lemma top_routes_spec_witness :
  length (top_routes 1700000000000000 (sixty_routes 1700000000000000)) = 50.
Proof.
  apply (proj1 (proj2 (proj2 (proj2 (proj2
           (top_routes_spec 1700000000000000
                            (sixty_routes 1700000000000000))))))).
  vm_compute. reflexivity.
Defined.

Example top_routes_first_rows :
  map snd (take 12 (top_routes 1700000000000000 (sixty_routes 1700000000000000)))
  = [2; 2; 2; 2; 2; 2; 2; 2; 2; 2; 1; 1].
Proof. vm_compute. reflexivity. Qed.


(** * Further properties *)

(** ** More on the anonymizer *)

(** Splitting what was joined from separator-free pieces gives the pieces
    back. *)
Lemma split_join (sep : ascii) (pieces : list string) :
  pieces <> [] ->
  Forall (fun piece => Js.includes sep piece = false) pieces ->
  Js.split sep (Js.join (String sep "") pieces) = pieces.
Proof.
  induction pieces as [|p [|q rest] IH]; intros Hne Hall; [congruence | |].
  - apply Forall_cons in Hall as [Hp _]. simpl. now apply split_whole.
  - apply Forall_cons in Hall as [Hp Hall].
    change (Js.join (String sep "") (p :: q :: rest))
      with (p +:+ String sep "" +:+ Js.join (String sep "") (q :: rest)).
    rewrite append_cons, append_nil_l, split_cons by exact Hp.
    now rewrite IH.
Qed.

Lemma octet_group (g : string) : octet g -> group g.
Proof. now intros [_ H]. Qed.

Lemma dotted_group (a b c d : string) :
  octet a -> octet b -> octet c -> octet d ->
  group (a +:+ "." +:+ b +:+ "." +:+ c +:+ "." +:+ d).
Proof.
  intros [_ Ha] [_ Hb] [_ Hc] [_ Hd]. unfold group.
  rewrite !includes_app, Ha, Hb, Hc, Hd. reflexivity.
Qed.

Lemma cidr_dotted (a b c d : string) :
  octet a -> octet b -> octet c -> octet d ->
  Anonymizer.anonymize_cidr (Some (a +:+ "." +:+ b +:+ "." +:+ c +:+ "." +:+ d))
  = Some (a +:+ "." +:+ b +:+ "." +:+ c +:+ "." +:+ "0").
Proof.
  intros Ha Hb Hc Hd.
  rewrite cidr_no_colon;
    [| str_simpl; apply append_sep_not_empty | now apply dotted_group].
  destruct Ha as [Ha _], Hb as [Hb _], Hc as [Hc _], Hd as [Hd _].
  str_simpl.
  rewrite (split_cons "." a), (split_cons "." b), (split_cons "." c),
    (split_whole "." d) by assumption.
  reflexivity.
Qed.

Lemma cidr_three_groups (g1 g2 g3 rest : string) :
  group g1 -> group g2 -> group g3 ->
  Anonymizer.anonymize_cidr
    (Some (g1 +:+ ":" +:+ g2 +:+ ":" +:+ g3 +:+ ":" +:+ rest))
  = Some (g1 +:+ ":" +:+ g2 +:+ ":" +:+ g3 +:+ "::").
Proof.
  intros H1 H2 H3. unfold group in *.
  rewrite cidr_colon by (str_simpl; apply includes_sep).
  str_simpl.
  rewrite (split_cons ":" g1), (split_cons ":" g2), (split_cons ":" g3)
    by assumption.
  simpl. str_norm. reflexivity.
Qed.

Lemma cidr_two_groups (g1 g2 : string) :
  group g1 -> group g2 ->
  Anonymizer.anonymize_cidr (Some (g1 +:+ ":" +:+ g2))
  = Some (g1 +:+ ":" +:+ g2 +:+ "::").
Proof.
  intros H1 H2. unfold group in *.
  rewrite cidr_colon by (str_simpl; apply includes_sep).
  str_simpl.
  rewrite (split_cons ":" g1), (split_whole ":" g2) by assumption.
  simpl. str_norm. reflexivity.
Qed.

(** X1.  Under policy [cidr] two four-part dotted addresses get the same
    anonymized value exactly when their first three parts agree: the
    value identifies the /24 and nothing finer. *)
Theorem cidr_same_subnet (a b c d a' b' c' d' : string) :
  octet a -> octet b -> octet c -> octet d ->
  octet a' -> octet b' -> octet c' -> octet d' ->
  Anonymizer.anonymize_cidr (Some (a +:+ "." +:+ b +:+ "." +:+ c +:+ "." +:+ d))
  = Anonymizer.anonymize_cidr
      (Some (a' +:+ "." +:+ b' +:+ "." +:+ c' +:+ "." +:+ d'))
  <-> a = a' /\ b = b' /\ c = c'.
Proof.
  intros Ha Hb Hc Hd Ha' Hb' Hc' Hd'.
  rewrite !cidr_dotted by assumption. split.
  - intros [= H]. apply (f_equal (Js.split ".")) in H.
    change (a +:+ "." +:+ b +:+ "." +:+ c +:+ "." +:+ "0")
      with (Js.join "." [a; b; c; "0"]) in H.
    change (a' +:+ "." +:+ b' +:+ "." +:+ c' +:+ "." +:+ "0")
      with (Js.join "." [a'; b'; c'; "0"]) in H.
    rewrite !split_join in H;
      [now injection H | discriminate | | discriminate |];
      repeat constructor; try apply Ha; try apply Hb; try apply Hc;
      try apply Ha'; try apply Hb'; try apply Hc'.
  - now intros (-> & -> & ->).
Qed.

(** Witness of [cidr_same_subnet]: two hosts of 192.168.1.0/24. *)
Lemma cidr_same_subnet_witness :
  Anonymizer.anonymize_cidr (Some "192.168.1.77")
  = Anonymizer.anonymize_cidr (Some "192.168.1.3").
Proof.
  apply (cidr_same_subnet "192" "168" "1" "77" "192" "168" "1" "3");
    repeat split.
Defined.

(** X2.  Anonymizing an anonymized value again changes nothing for a
    four-part dotted address and for an address of three or more groups;
    for an address of exactly two groups it appends one more colon. *)
Theorem cidr_twice :
  (forall a b c d : string,
      octet a -> octet b -> octet c -> octet d ->
      let once := Anonymizer.anonymize_cidr
                    (Some (a +:+ "." +:+ b +:+ "." +:+ c +:+ "." +:+ d)) in
      Anonymizer.anonymize_cidr once = once)
  /\ (forall g1 g2 g3 rest : string,
        group g1 -> group g2 -> group g3 ->
        let once := Anonymizer.anonymize_cidr
                      (Some (g1 +:+ ":" +:+ g2 +:+ ":" +:+ g3 +:+ ":" +:+ rest)) in
        Anonymizer.anonymize_cidr once = once)
  /\ (forall g1 g2 g3 : string,
        group g1 -> group g2 -> group g3 ->
        let once := Anonymizer.anonymize_cidr
                      (Some (g1 +:+ ":" +:+ g2 +:+ ":" +:+ g3)) in
        Anonymizer.anonymize_cidr once = once)
  /\ (forall g1 g2 : string,
        group g1 -> group g2 ->
        Anonymizer.anonymize_cidr
          (Anonymizer.anonymize_cidr (Some (g1 +:+ ":" +:+ g2)))
        = Some (g1 +:+ ":" +:+ g2 +:+ ":::")).
Proof.
  split; [| split; [| split]].
  - intros a b c d Ha Hb Hc Hd once. unfold once.
    rewrite cidr_dotted by assumption.
    apply cidr_dotted; try assumption. split; reflexivity.
  - intros g1 g2 g3 rest H1 H2 H3 once. unfold once.
    rewrite cidr_three_groups by assumption.
    apply (cidr_three_groups g1 g2 g3 ":"); assumption.
  - intros g1 g2 g3 H1 H2 H3 once. unfold once.
    rewrite cidr_colon by (str_simpl; apply includes_sep).
    unfold group in *. str_simpl.
    rewrite (split_cons ":" g1), (split_cons ":" g2), (split_whole ":" g3)
      by assumption.
    simpl. str_norm.
    apply (cidr_three_groups g1 g2 g3 ":"); assumption.
  - intros g1 g2 H1 H2. rewrite cidr_two_groups by assumption.
    rewrite cidr_colon by (str_simpl; apply includes_sep).
    unfold group in *. str_simpl.
    rewrite (split_cons ":" g1), (split_cons ":" g2) by assumption.
    simpl. str_norm. reflexivity.
Qed.

(** Witness of [cidr_twice]. *)
Lemma cidr_twice_witness :
  Anonymizer.anonymize_cidr (Anonymizer.anonymize_cidr (Some "10.1.2.3"))
  = Anonymizer.anonymize_cidr (Some "10.1.2.3")
  /\ Anonymizer.anonymize_cidr
       (Anonymizer.anonymize_cidr (Some "2001:db8:85a3:0:0:8a2e:370:7334"))
     = Anonymizer.anonymize_cidr (Some "2001:db8:85a3:0:0:8a2e:370:7334")
  /\ Anonymizer.anonymize_cidr (Anonymizer.anonymize_cidr (Some "fe80:1"))
     = Some "fe80:1:::".
Proof.
  destruct cidr_twice as (H4 & H6 & _ & H2).
  refine (conj _ (conj _ _)).
  - apply (H4 "10" "1" "2" "3"); split; reflexivity.
  - apply (H6 "2001" "db8" "85a3" "0:0:8a2e:370:7334"); reflexivity.
  - apply (H2 "fe80" "1"); reflexivity.
Defined.

(** X3.  A four-part dotted address that comes with a port is taken for
    an IPv6 address of two groups: it comes back whole, port included,
    with [::] appended, and no part of it is zeroed. *)
Theorem cidr_keeps_address_with_port (a b c d port : string) :
  octet a -> octet b -> octet c -> octet d -> group port ->
  Anonymizer.anonymize_cidr
    (Some ((a +:+ "." +:+ b +:+ "." +:+ c +:+ "." +:+ d) +:+ ":" +:+ port))
  = Some ((a +:+ "." +:+ b +:+ "." +:+ c +:+ "." +:+ d) +:+ ":" +:+ port +:+ "::").
Proof.
  intros Ha Hb Hc Hd Hp.
  apply cidr_two_groups; [now apply dotted_group | exact Hp].
Qed.

(** Witness of [cidr_keeps_address_with_port]. *)
Lemma cidr_keeps_address_with_port_witness :
  Anonymizer.anonymize_cidr (Some "203.0.113.9:51234")
  = Some "203.0.113.9:51234::".
Proof.
  apply (cidr_keeps_address_with_port "203" "0" "113" "9" "51234");
    try (split; reflexivity); reflexivity.
Defined.

Lemma not_empty_length (s : string) : 0 < String.length s -> s <> "".
Proof. destruct s; simpl; [lia | discriminate]. Qed.

(** X4.  Whatever the mode and the salt, the anonymizer returns [null]
    exactly for a [null] or empty address, and what it returns otherwise
    is never the empty string. *)
Theorem anonymizer_never_empty (mode salt : string) (ip : option string) :
  (Anonymizer.makeAnonymizer mode salt ip = None
   <-> ip = None \/ ip = Some "")
  /\ (forall out, Anonymizer.makeAnonymizer mode salt ip = Some out ->
                  out <> "").
Proof.
  split.
  - split.
    + intros H. destruct ip as [s|]; [| now left]. right.
      destruct (String.eqb_spec s "") as [->|Hne]; [reflexivity |].
      destruct (anonymizer_populates mode salt s Hne) as [a Ha]. congruence.
    + intros [-> | ->]; [| apply anonymizer_empty].
      unfold Anonymizer.makeAnonymizer.
      destruct (String.eqb mode "none"); [| destruct (String.eqb mode "hash")];
        reflexivity.
  - intros out. unfold Anonymizer.makeAnonymizer.
    destruct ip as [s|];
      [| destruct (String.eqb mode "none");
         [| destruct (String.eqb mode "hash")]; discriminate].
    destruct (String.eqb mode "none"); [| destruct (String.eqb mode "hash")].
    + unfold Anonymizer.anonymize_none.
      destruct (String.eqb_spec s ""); [discriminate | congruence].
    + unfold Anonymizer.anonymize_hash.
      destruct (String.eqb s ""); [discriminate |]. intros H.
      replace out with (Js.str_slice0 16 (Sha256.hex_digest (salt +:+ s)))
        by congruence.
      apply not_empty_length. rewrite str_slice0_length; [lia |].
      destruct (hex_digest_shape (salt +:+ s)) as [-> _]. lia.
    + unfold Anonymizer.anonymize_cidr.
      destruct (String.eqb_spec s "") as [|Hne]; [discriminate |].
      destruct (Js.includes ":" s).
      * intros [= <-]. apply not_empty_length.
        rewrite append_length. simpl. lia.
      * destruct (Js.split "." s) as [|p0 [|p1 [|p2 [|p3 [|p4 rest]]]]];
          simpl; try congruence.
        intros [= <-]. apply not_empty_length.
        rewrite !append_length. simpl. lia.
Qed.

(** Witness of [anonymizer_never_empty]: what the default policy returns
    for 203.0.113.9 is not the empty string. *)
Lemma anonymizer_never_empty_witness :
  Anonymizer.makeAnonymizer "cidr" "" (Some "203.0.113.9") <> None
  /\ "203.0.113.0" <> "".
Proof.
  destruct (anonymizer_never_empty "cidr" "" (Some "203.0.113.9"))
    as [Hnull Hout].
  split.
  - intros H. apply Hnull in H as [H|H]; discriminate H.
  - apply (Hout "203.0.113.0"). reflexivity.
Defined.

(** ** The middleware *)

Lemma ends_with_unfold (x s : string) :
  ends_with x s
  = String.eqb s x
    || match s with
       | String _ s' => ends_with x s'
       | EmptyString => false
       end.
Proof. destruct s; reflexivity. Qed.

Lemma ends_with_iff (x s : string) :
  ends_with x s = true <-> exists stem, s = stem +:+ x.
Proof.
  split.
  - induction s as [|a s IH]; rewrite ends_with_unfold; intros H;
      apply orb_true_iff in H as [H|H].
    + apply String.eqb_eq in H. exists "". now rewrite <- H.
    + discriminate.
    + apply String.eqb_eq in H. exists "". now rewrite <- H.
    + destruct (IH H) as [stem ->]. now exists (String a stem).
  - intros [stem ->]. induction stem as [|a stem IH]; rewrite ends_with_unfold.
    + rewrite append_nil_l, String.eqb_refl. reflexivity.
    + rewrite append_cons, IH. apply orb_true_r.
Qed.

Lemma lower_app (x y : string) : lower (x +:+ y) = lower x +:+ lower y.
Proof.
  induction x as [|a x IH]; [reflexivity |].
  rewrite append_cons. simpl. now rewrite IH, append_cons.
Qed.

Lemma lower_app_inv (p x y : string) :
  lower p = x +:+ y ->
  exists p1 p2, p = p1 +:+ p2 /\ lower p1 = x /\ lower p2 = y.
Proof.
  revert p. induction x as [|a x IH]; intros p H.
  - exists "", p. now rewrite append_nil_l in H.
  - rewrite append_cons in H. destruct p as [|b p]; [discriminate |].
    simpl in H. injection H as Hb Hp.
    destruct (IH p Hp) as (p1 & p2 & -> & H1 & H2).
    exists (String b p1), p2. simpl. now rewrite Hb, H1.
Qed.

(** X5.  The default path filter lets a request skip the capture exactly
    when its path ends in one of [.css .js .png .jpg .svg .woff .woff2],
    letters in either case: such a request leaves the queue and every
    other shared variable untouched, any other request has the capture
    handler run. *)
Theorem asset_paths_skipped (path : string) :
  (asset_test path = true
   <-> exists stem ext, path = stem +:+ ext /\ In (lower ext) asset_extensions)
  /\ (forall c ob s,
        asset_test path = true -> on_request c None path ob s = (Normal tt, s))
  /\ (forall c ob,
        asset_test path = false -> on_request c None path ob = on_finish c ob).
Proof.
  split; [| split].
  - unfold asset_test. rewrite existsb_exists. split.
    + intros (x & Hin & Hx). apply ends_with_iff in Hx as [stem' Hs].
      destruct (lower_app_inv _ _ _ Hs) as (stem & ext & -> & _ & Hext).
      exists stem, ext. now rewrite Hext.
    + intros (stem & ext & -> & Hin). exists (lower ext). split; [exact Hin |].
      apply ends_with_iff. exists (lower stem). apply lower_app.
  - intros c ob s H. unfold on_request, redacted. simpl. now rewrite H.
  - intros c ob H. unfold on_request, redacted. simpl. now rewrite H.
Qed.

(** Witness of [asset_paths_skipped]: a style sheet in upper case is
    skipped, a JSON document is not. *)
Lemma asset_paths_skipped_witness :
  on_request (configure (sample_options None None)) None "/static/SITE.CSS"
             (sample_observed "198.51.100.1") boot
  = (Normal tt, boot)
  /\ on_request (configure (sample_options None None)) None "/api/data.json"
                (sample_observed "198.51.100.1")
     = on_finish (configure (sample_options None None))
                 (sample_observed "198.51.100.1").
Proof.
  split.
  - apply (proj1 (proj2 (asset_paths_skipped "/static/SITE.CSS"))).
    reflexivity.
  - apply (proj2 (proj2 (asset_paths_skipped "/api/data.json"))).
    reflexivity.
Defined.

Lemma first_hop_shape (v : string) :
  Js.includes "," (first_hop v) = false
  /\ (v = first_hop v \/ exists rest, v = first_hop v +:+ "," +:+ rest).
Proof.
  unfold first_hop.
  pose proof (split_pieces "," v) as Hp. pose proof (join_split "," v) as Hj.
  destruct (Js.split "," v) as [|piece [|q rest]].
  - split; [reflexivity | left; now rewrite <- Hj].
  - apply Forall_cons in Hp as [Hp _]. split; [exact Hp | now left].
  - apply Forall_cons in Hp as [Hp _]. split; [exact Hp |].
    right. exists (Js.join "," (q :: rest)). now rewrite <- Hj.
Qed.

(** X6.  The address the capture handler records is the trimmed first
    comma-separated entry of [X-Forwarded-For] whenever that header holds
    a non-empty value, whatever [req.ip] says; only without it is
    [req.ip] used, and with neither the address is the trimmed empty
    string.  The entry taken holds no comma and is the whole value or
    what precedes its first comma. *)
Theorem client_ip_source (trim : string -> string) (h : header)
    (req_ip : option string) :
  (forall v, forwarded h = Some v -> v <> "" ->
             client_ip trim h req_ip = trim (first_hop v))
  /\ (forwarded h = None \/ forwarded h = Some "" ->
      (forall v, req_ip = Some v -> v <> "" ->
                 client_ip trim h req_ip = trim (first_hop v))
      /\ (req_ip = None \/ req_ip = Some "" -> client_ip trim h req_ip = trim ""))
  /\ (forall v, Js.includes "," (first_hop v) = false
                /\ (v = first_hop v
                    \/ exists rest, v = first_hop v +:+ "," +:+ rest)).
Proof.
  split; [| split].
  - intros v Hv Hne. unfold client_ip. rewrite Hv. simpl.
    destruct (String.eqb_spec v ""); [contradiction | reflexivity].
  - intros Hh.
    assert (Hs : str_or (forwarded h) (str_or req_ip "") = str_or req_ip "")
      by (destruct Hh as [-> | ->]; reflexivity).
    unfold client_ip. rewrite Hs. split.
    + intros v -> Hne. simpl.
      destruct (String.eqb_spec v ""); [contradiction | reflexivity].
    + intros [-> | ->]; reflexivity.
  - exact first_hop_shape.
Qed.

(** Witness of [client_ip_source], with the identity for [trim]: a proxy
    chain in the header wins over [req.ip]. *)
Lemma client_ip_source_witness :
  client_ip (fun s => s) (Single "203.0.113.9, 10.0.0.1") (Some "10.0.0.1")
  = "203.0.113.9"
  /\ client_ip (fun s => s) Absent (Some "10.0.0.1") = "10.0.0.1".
Proof.
  split.
  - apply (proj1 (client_ip_source (fun s => s)
                    (Single "203.0.113.9, 10.0.0.1") (Some "10.0.0.1"))
                 "203.0.113.9, 10.0.0.1"); [reflexivity | discriminate].
  - apply (proj1 (proj1 (proj2 (client_ip_source (fun s => s) Absent
                                  (Some "10.0.0.1")))
                        (or_intror eq_refl))
                 "10.0.0.1"); [reflexivity | discriminate].
Defined.



(** ** The basic-auth guard *)

(** The two names the guard compares are pieces of the decoded string. *)
Lemma credentials_pieces (decoded u : string) (p : option string) :
  credentials decoded = (u, p) ->
  group u /\ forall pw, p = Some pw -> group pw.
Proof.
  unfold credentials, group. pose proof (split_pieces ":" decoded) as Hp.
  destruct (Js.split ":" decoded) as [|u0 [|p0 rest]]; intros [= <- <-].
  - split; [reflexivity | discriminate].
  - apply Forall_cons in Hp as [Hu _]. split; [exact Hu | discriminate].
  - apply Forall_cons in Hp as [Hu Hp]. apply Forall_cons in Hp as [Hp0 _].
    split; [exact Hu |]. now intros pw [= <-].
Qed.

Lemma credentials_pair (decoded user pw : string) :
  group user -> group pw ->
  credentials decoded = (user, Some pw)
  <-> decoded = user +:+ ":" +:+ pw
      \/ exists rest, decoded = user +:+ ":" +:+ pw +:+ ":" +:+ rest.
Proof.
  intros Hu Hp. unfold group in *. split.
  - unfold credentials. pose proof (join_split ":" decoded) as Hj.
    destruct (Js.split ":" decoded) as [|u0 [|p0 rest]]; intros [= -> ->].
    destruct rest as [|r rest]; [left | right]; rewrite <- Hj.
    + reflexivity.
    + now exists (Js.join ":" (r :: rest)).
  - unfold credentials. intros [-> | [rest ->]]; str_simpl.
    + now rewrite (split_cons ":" user), (split_whole ":" pw).
    + rewrite (split_cons ":" user), (split_cons ":" pw) by assumption.
      reflexivity.
Qed.

Lemma credentials_alone (decoded user : string) :
  group user ->
  credentials decoded = (user, None) <-> decoded = user.
Proof.
  intros Hu. unfold group in *. split.
  - unfold credentials. pose proof (join_split ":" decoded) as Hj.
    destruct (Js.split ":" decoded) as [|u0 [|p0 rest]]; intros [= <-];
      now rewrite <- Hj.
  - intros ->. unfold credentials. now rewrite split_whole.
Qed.

Lemma header_with_scheme (authorization : option string) :
  String.prefix "Basic " (str_or authorization "") = true
  <-> exists hdr, authorization = Some hdr /\ String.prefix "Basic " hdr = true.
Proof.
  split.
  - destruct authorization as [hdr|]; [| discriminate]. simpl.
    destruct (String.eqb_spec hdr "") as [->|_]; [discriminate | eauto].
  - intros (hdr & -> & H). simpl.
    destruct (String.eqb_spec hdr "") as [->|_]; [discriminate | exact H].
Qed.

(** X8.  With a user and a password that hold no colon, the guard lets a
    request through exactly when its [Authorization] header starts with
    [Basic ] and what follows decodes to [user:password], or to
    [user:password:] followed by anything: whatever comes after a second
    colon is not compared. *)
Theorem basic_auth_accepts (base64_utf8 : string -> string)
    (user pw : string) (authorization : option string) :
  group user -> group pw ->
  check_basic base64_utf8 (BasicAuth (Some user) (Some pw)) authorization
  = PassOn
  <-> exists hdr,
        authorization = Some hdr
        /\ String.prefix "Basic " hdr = true
        /\ (base64_utf8 (str_drop 6 hdr) = user +:+ ":" +:+ pw
            \/ exists rest,
                 base64_utf8 (str_drop 6 hdr)
                 = user +:+ ":" +:+ pw +:+ ":" +:+ rest).
Proof.
  intros Hu Hp. unfold check_basic. split.
  - destruct (String.prefix "Basic " (str_or authorization "")) eqn:Hpre;
      [| discriminate].
    apply header_with_scheme in Hpre as (hdr & -> & Hpre).
    assert (Hs : str_or (Some hdr) "" = hdr)
      by (simpl; destruct (String.eqb_spec hdr ""); congruence).
    rewrite Hs. simpl negb. cbv iota.
    destruct (credentials (base64_utf8 (str_drop 6 hdr))) as [u p] eqn:Hc.
    simpl ba_user. simpl ba_pass.
    destruct (bool_decide (Some u = Some user)) eqn:H1; [| discriminate].
    destruct (bool_decide (p = Some pw)) eqn:H2; [| discriminate].
    intros _. apply bool_decide_eq_true_1 in H1, H2.
    injection H1 as ->. subst p.
    exists hdr. split; [reflexivity |]. split; [exact Hpre |].
    now apply credentials_pair.
  - intros (hdr & -> & Hpre & Hd).
    assert (Hs : str_or (Some hdr) "" = hdr)
      by (simpl; destruct (String.eqb_spec hdr ""); congruence).
    rewrite Hs, Hpre. simpl negb. cbv iota.
    apply (credentials_pair _ user pw Hu Hp) in Hd. rewrite Hd.
    simpl. now rewrite !bool_decide_eq_true_2.
Qed.

(** Witness of [basic_auth_accepts], with a decoder that returns its
    input: trailing text after a second colon is accepted. *)
Lemma basic_auth_accepts_witness :
  check_basic (fun s => s) (BasicAuth (Some "admin") (Some "changeme"))
              (Some "Basic admin:changeme:anything")
  = PassOn.
Proof.
  apply (basic_auth_accepts (fun s => s) "admin" "changeme"
           (Some "Basic admin:changeme:anything"));
    [reflexivity | reflexivity |].
  exists "Basic admin:changeme:anything".
  split; [reflexivity |]. split; [reflexivity |].
  right. exists "anything". reflexivity.
Defined.

(** X9.  When the configured user or the configured password holds a
    colon, the guard lets no request through, whatever its header. *)
Theorem basic_auth_colon_locks_out (base64_utf8 : string -> string)
    (user pw : string) (authorization : option string) :
  Js.includes ":" user = true \/ Js.includes ":" pw = true ->
  check_basic base64_utf8 (BasicAuth (Some user) (Some pw)) authorization
  <> PassOn.
Proof.
  intros Hcolon. unfold check_basic.
  destruct (negb _); [discriminate |].
  destruct (credentials _) as [u p] eqn:Hc.
  destruct (credentials_pieces _ _ _ Hc) as [Hu Hp]. simpl.
  destruct (bool_decide (Some u = Some user)) eqn:H1; [| discriminate].
  destruct (bool_decide (p = Some pw)) eqn:H2; [| discriminate].
  apply bool_decide_eq_true_1 in H1, H2. injection H1 as ->.
  specialize (Hp pw H2). unfold group in *.
  destruct Hcolon; congruence.
Qed.

(** Witness of [basic_auth_colon_locks_out]: the exact credentials are
    refused when the password is [a:b]. *)
Lemma basic_auth_colon_locks_out_witness :
  check_basic (fun s => s) (BasicAuth (Some "admin") (Some "a:b"))
              (Some "Basic admin:a:b")
  <> PassOn.
Proof.
  apply (basic_auth_colon_locks_out (fun s => s) "admin" "a:b").
  right. reflexivity.
Defined.

(** X10.  The dashboard is guarded only when [basicAuth] names a
    non-empty user: without [basicAuth], or with a password but no user,
    every request passes.  With a user and no password, a request passes
    exactly when its header decodes to the user name alone, without any
    colon. *)
Theorem guard_needs_user (base64_utf8 : string -> string)
    (authorization : option string) :
  dashboard_guard base64_utf8 None authorization = PassOn
  /\ (forall pass,
        dashboard_guard base64_utf8 (Some (BasicAuth None pass)) authorization
        = PassOn
        /\ dashboard_guard base64_utf8 (Some (BasicAuth (Some "") pass))
                           authorization
           = PassOn)
  /\ (forall user, user <> "" -> group user ->
        dashboard_guard base64_utf8 (Some (BasicAuth (Some user) None))
                        authorization
        = PassOn
        <-> exists hdr,
              authorization = Some hdr
              /\ String.prefix "Basic " hdr = true
              /\ base64_utf8 (str_drop 6 hdr) = user).
Proof.
  split; [reflexivity |]. split; [intros pass; split; reflexivity |].
  intros user Hne Hu. unfold dashboard_guard. simpl str_falsy.
  destruct (String.eqb_spec user "") as [|_]; [contradiction |].
  unfold check_basic. split.
  - destruct (String.prefix "Basic " (str_or authorization "")) eqn:Hpre;
      [| discriminate].
    apply header_with_scheme in Hpre as (hdr & -> & Hpre).
    assert (Hs : str_or (Some hdr) "" = hdr)
      by (simpl; destruct (String.eqb_spec hdr ""); congruence).
    rewrite Hs. simpl negb. cbv iota.
    destruct (credentials (base64_utf8 (str_drop 6 hdr))) as [u p] eqn:Hc.
    simpl ba_user. simpl ba_pass.
    destruct (bool_decide (Some u = Some user)) eqn:H1; [| discriminate].
    destruct (bool_decide (p = None)) eqn:H2; [| discriminate].
    intros _. apply bool_decide_eq_true_1 in H1, H2.
    injection H1 as ->. subst p.
    exists hdr. split; [reflexivity |]. split; [exact Hpre |].
    now apply credentials_alone.
  - intros (hdr & -> & Hpre & Hd).
    assert (Hs : str_or (Some hdr) "" = hdr)
      by (simpl; destruct (String.eqb_spec hdr ""); congruence).
    rewrite Hs, Hpre. simpl negb. cbv iota.
    apply (credentials_alone _ user Hu) in Hd. rewrite Hd.
    simpl. now rewrite !bool_decide_eq_true_2.
Qed.

(** Witness of [guard_needs_user]: a password without a user guards
    nothing; a user without a password is let in by the name alone. *)
Lemma guard_needs_user_witness :
  dashboard_guard (fun s => s) (Some (BasicAuth None (Some "changeme"))) None
  = PassOn
  /\ dashboard_guard (fun s => s) (Some (BasicAuth (Some "admin") None))
                     (Some "Basic admin")
     = PassOn.
Proof.
  split.
  - apply (proj1 (proj2 (guard_needs_user (fun s => s) None))).
  - apply (proj2 (proj2 (guard_needs_user (fun s => s) (Some "Basic admin")))
                 "admin"); [discriminate | reflexivity |].
    exists "Basic admin". repeat split.
Defined.

(** ** More on the batch inserter *)

Lemma removed_count_min (c : config) (n : nat) :
  (0 <= batchSize c)%Z ->
  removed_count c n = Nat.min (Z.to_nat (batchSize c)) n.
Proof. unfold removed_count. lia. Qed.

Lemma removed_take (c : config) (l : list event) :
  (0 <= batchSize c)%Z ->
  take (removed_count c (length l)) l = take (Z.to_nat (batchSize c)) l.
Proof.
  intros H. rewrite removed_count_min by exact H.
  destruct (Nat.min_spec (Z.to_nat (batchSize c)) (length l)) as [[_ ->]|[Hle ->]];
    [reflexivity |].
  now rewrite !take_ge by lia.
Qed.

Lemma removed_drop (c : config) (l : list event) :
  (0 <= batchSize c)%Z ->
  drop (removed_count c (length l)) l = drop (Z.to_nat (batchSize c)) l.
Proof.
  intros H. rewrite removed_count_min by exact H.
  destruct (Nat.min_spec (Z.to_nat (batchSize c)) (length l)) as [[_ ->]|[Hle ->]];
    [reflexivity |].
  now rewrite !drop_ge by lia.
Qed.

Lemma insert_query_batch (c : config) (items : list event) :
  batch (insert_query c items) = items.
Proof. apply (insert_query_shape c items). Qed.

(** One tick and the settlement of what it started. *)
Lemma one_round (c : config) (s : core) (r : completion unit) :
  (0 <= batchSize c)%Z -> consistent s -> draining s = false ->
  let s' := next c (next c s Tick) (Settle 0 r) in
  consistent s' /\ draining s' = false
  /\ queue s' = drop (Z.to_nat (batchSize c)) (queue s)
  /\ concat (map batch (sent s'))
     = concat (map batch (sent s)) ++ take (Z.to_nat (batchSize c)) (queue s).
Proof.
  intros Hb Hcons Hd s'.
  split; [unfold s'; now do 2 apply next_consistent |].
  destruct Hcons as [Ht [[_ Hin]|[Hd' _]]]; [| congruence].
  assert (Htick : next c s Tick = drain c s) by (unfold next; simpl; now rewrite Ht).
  unfold s'. rewrite Htick.
  destruct (drain_cases c s) as [[[H|H] ->]|(_ & Hne & ->)]; [congruence | |].
  - assert (Hs : next c s (Settle 0 r) = s)
      by (unfold next; simpl; now rewrite Hin).
    rewrite Hs, H, drop_nil, take_nil, app_nil_r. auto.
  - set (k := removed_count c (length (queue s))).
    assert (Hfields :
              draining (next c (flushing c s) (Settle 0 r)) = false
              /\ queue (next c (flushing c s) (Settle 0 r)) = drop k (queue s)
              /\ sent (next c (flushing c s) (Settle 0 r))
                 = sent s ++ [insert_query c (take k (queue s))]).
    { unfold next, flushing. simpl. rewrite Hin. simpl.
      destruct r as [[]|m]; simpl; auto. }
    destruct Hfields as (Hd1 & Hq1 & Hs1).
    split; [exact Hd1 |]. rewrite Hq1, Hs1. unfold k.
    rewrite removed_drop, removed_take by exact Hb.
    split; [reflexivity |].
    rewrite map_app, concat_app. simpl.
    now rewrite insert_query_batch, app_nil_r.
Qed.

Lemma rounds_from (c : config) (outcomes : list (completion unit)) (s : core) :
  (0 <= batchSize c)%Z -> consistent s -> draining s = false ->
  let n := length outcomes * Z.to_nat (batchSize c) in
  let s' := snd (run c (rounds outcomes) s) in
  draining s' = false
  /\ queue s' = drop n (queue s)
  /\ concat (map batch (sent s'))
     = concat (map batch (sent s)) ++ take n (queue s).
Proof.
  intros Hb. revert s. induction outcomes as [|r outcomes IH]; intros s Hcons Hd.
  - simpl. rewrite drop_0, take_0, app_nil_r. auto.
  - cbn [rounds flat_map app]. fold (rounds outcomes).
    change (Tick :: Settle 0 r :: rounds outcomes)
      with ([Tick; Settle 0 r] ++ rounds outcomes).
    cbv zeta. rewrite run_app.
    assert (Hrun : snd (run c [Tick; Settle 0 r] s)
                   = next c (next c s Tick) (Settle 0 r)).
    { rewrite !run_cons. reflexivity. }
    rewrite Hrun.
    destruct (one_round c s r Hb Hcons Hd) as (Hc1 & Hd1 & Hq1 & Hs1).
    destruct (IH _ Hc1 Hd1) as (Hd2 & Hq2 & Hs2).
    split; [exact Hd2 |]. rewrite Hq2, Hs2, Hq1, Hs1.
    rewrite drop_drop, <- app_assoc, take_take_drop.
    split; reflexivity.
Qed.

(** X11.  With a positive batch size and no insert pending, [n] rounds of
    a timer tick followed by the settlement of the insert it started,
    fulfilled or rejected, take the first [n * batchSize] records out of
    the queue, in order and each once; as soon as [n * batchSize] covers
    the queue the backlog is gone. *)
Theorem backlog_drains (c : config) (trace : list label)
    (outcomes : list (completion unit)) :
  (0 < batchSize c)%Z ->
  draining (after c trace) = false ->
  let n := length outcomes * Z.to_nat (batchSize c) in
  let s := after c trace in
  let s' := after c (trace ++ rounds outcomes) in
  draining s' = false
  /\ queue s' = drop n (queue s)
  /\ concat (map batch (sent s'))
     = concat (map batch (sent s)) ++ take n (queue s)
  /\ (length (queue s) <= n -> queue s' = []).
Proof.
  intros Hb Hd n s s'.
  assert (Hs' : s' = snd (run c (rounds outcomes) s))
    by (unfold s', s, after; apply run_app).
  destruct (rounds_from c outcomes s) as (H1 & H2 & H3);
    [lia | apply after_consistent | exact Hd |].
  rewrite Hs'. repeat (split; [assumption |]).
  intros Hle. rewrite H2. now apply drop_ge.
Qed.

(** Witness of [backlog_drains]: a batch size of two, three records
    queued while the first insert was pending, two rounds of which the
    first is rejected. *)
Lemma backlog_drains_witness :
  let c := configure (sample_options None (Some 2%Z)) in
  let f i := Finish (sample_observed i) in
  queue (after c ([f "198.51.100.1"; f "198.51.100.2"; f "198.51.100.3";
                   f "198.51.100.4"; f "198.51.100.5"; Settle 0 (Normal tt)]
                  ++ rounds [Throw "connection lost"; Normal tt]))
  = [].
Proof.
  intros c f.
  apply (backlog_drains c
           [f "198.51.100.1"; f "198.51.100.2"; f "198.51.100.3";
            f "198.51.100.4"; f "198.51.100.5"; Settle 0 (Normal tt)]
           [Throw "connection lost"; Normal tt]);
    [reflexivity | reflexivity | vm_compute; lia].
Defined.

(** What the store holds is drawn, in order, from the batches whose
    insert has settled; it is all of them as long as none was rejected. *)
Lemma drain_settled (c : config) (s : core) (ok : bool) :
  (exists done, sent s = done ++ inflight s
                /\ stored s `sublist_of` concat (map batch done)
                /\ (ok = true -> stored s = concat (map batch done))) ->
  exists done, sent (drain c s) = done ++ inflight (drain c s)
               /\ stored (drain c s) `sublist_of` concat (map batch done)
               /\ (ok = true -> stored (drain c s) = concat (map batch done)).
Proof.
  intros (done & Hs & Hsub & Heq).
  destruct (drain_cases c s) as [[_ ->]|(_ & _ & ->)]; [now exists done |].
  exists done. unfold flushing. simpl. rewrite Hs, <- app_assoc. auto.
Qed.

Lemma next_settled (c : config) (s : core) (l : label) (ok : bool) :
  consistent s ->
  (exists done, sent s = done ++ inflight s
                /\ stored s `sublist_of` concat (map batch done)
                /\ (ok = true -> stored s = concat (map batch done))) ->
  exists done, sent (next c s l) = done ++ inflight (next c s l)
               /\ stored (next c s l) `sublist_of` concat (map batch done)
               /\ (ok && no_rejection l = true ->
                   stored (next c s l) = concat (map batch done)).
Proof.
  intros Hcons Hinv.
  assert (Hweak : forall t,
            (exists done, sent t = done ++ inflight t
                          /\ stored t `sublist_of` concat (map batch done)
                          /\ (ok = true -> stored t = concat (map batch done))) ->
            exists done, sent t = done ++ inflight t
                         /\ stored t `sublist_of` concat (map batch done)
                         /\ (ok && true = true ->
                             stored t = concat (map batch done))).
  { intros t (done & H1 & H2 & H3). exists done. rewrite andb_true_r. auto. }
  unfold next. destruct l as [|ob|i r|].
  - simpl. apply Hweak. destruct (timer s); [now apply drain_settled | exact Hinv].
  - apply Hweak.
    destruct (finish_cases c ob s) as [[_ ->]|(e & _ & ->)]; [exact Hinv |].
    simpl. destruct (_ <=? _)%Z; [apply drain_settled |]; exact Hinv.
  - simpl. destruct (inflight s !! i) as [q|] eqn:Hq;
      [| destruct r as [[]|m]; [apply Hweak; exact Hinv |]].
    + destruct Hinv as (done & Hs & Hsub & Heq).
      destruct Hcons as [_ [[_ Hi]|[_ [q' Hi]]]]; rewrite Hi in Hq, Hs.
      * now rewrite lookup_nil in Hq.
      * destruct i as [|i]; [| now simpl in Hq; rewrite lookup_nil in Hq].
        injection Hq as <-. exists (done ++ [q']).
        assert (Hcat : concat (map batch (done ++ [q']))
                       = concat (map batch done) ++ batch q')
          by (rewrite map_app, concat_app; simpl; now rewrite app_nil_r).
        rewrite Hcat.
        destruct r as [[]|m]; simpl; rewrite Hi; simpl; rewrite app_nil_r.
        -- split; [exact Hs |]. split; [now apply sublist_app |].
           rewrite andb_true_r. intros Hok. now rewrite (Heq Hok).
        -- split; [exact Hs |]. split; [now apply sublist_inserts_r |].
           rewrite andb_false_r. discriminate.
    + destruct Hinv as (done & Hs & Hsub & Heq). exists done.
      repeat split; try assumption. rewrite andb_false_r. discriminate.
  - change (snd (step c Stop s)) with (next c s Stop). rewrite next_stop.
    apply Hweak. exact Hinv.
Qed.

Lemma after_settled (c : config) (trace : list label) :
  exists done,
    sent (after c trace) = done ++ inflight (after c trace)
    /\ stored (after c trace) `sublist_of` concat (map batch done)
    /\ (forallb no_rejection trace = true ->
        stored (after c trace) = concat (map batch done)).
Proof.
  induction trace as [|l trace IH] using rev_ind.
  - exists []. repeat split; reflexivity.
  - rewrite after_snoc, forallb_app. simpl forallb. rewrite andb_true_r.
    apply next_settled; [apply after_consistent | exact IH].
Qed.

(** X12.  In every reachable state the rows the store holds are records
    that were captured, in the order of their capture and none twice.  As
    long as no insert was rejected, nothing is lost: the rows stored, the
    records of the pending insert and the records still queued, put end to
    end, are exactly the captured records in order. *)
Theorem store_keeps_order (c : config) (trace : list label) :
  let s := after c trace in
  stored s `sublist_of` concat (map (enqueued c) trace)
  /\ (forallb no_rejection trace = true ->
      stored s ++ pending s ++ queue s = concat (map (enqueued c) trace)).
Proof.
  intros s.
  destruct (after_settled c trace) as (done & Hs & Hsub & Heq). fold s in Hs, Hsub, Heq.
  assert (Hh : concat (map batch done) ++ pending s ++ queue s
               = concat (map (enqueued c) trace)).
  { pose proof (run_history c trace boot) as Hh. fold (after c trace) in Hh.
    fold s in Hh. unfold history in Hh. rewrite Hs in Hh.
    rewrite map_app, concat_app, <- app_assoc in Hh. exact Hh. }
  split.
  - rewrite <- Hh. now apply sublist_inserts_r.
  - intros Hok. now rewrite (Heq Hok).
Qed.

(** Witness of [store_keeps_order]: with a batch size of one, two records
    are captured, the first insert is fulfilled and a tick starts the
    second. *)
Lemma store_keeps_order_witness :
  let c := configure (sample_options None (Some 1%Z)) in
  let a := Finish (sample_observed "198.51.100.1") in
  let b := Finish (sample_observed "198.51.100.2") in
  let s := after c [a; b; Settle 0 (Normal tt); Tick] in
  stored s ++ pending s ++ queue s = enqueued c a ++ enqueued c b.
Proof.
  intros c a b s.
  apply (proj2 (store_keeps_order c [a; b; Settle 0 (Normal tt); Tick])).
  reflexivity.
Defined.

Lemma drain_sends_nothing (c : config) (s : core) :
  (batchSize c <= 0)%Z ->
  Forall (fun q => q = insert_query c []) (sent s) ->
  Forall (fun q => q = insert_query c []) (sent (drain c s)).
Proof.
  intros Hb Hall.
  destruct (drain_cases c s) as [[_ ->]|(_ & _ & ->)]; [exact Hall |].
  unfold flushing. simpl. apply Forall_app. split; [exact Hall |].
  constructor; [| constructor].
  replace (removed_count c (length (queue s))) with 0
    by (unfold removed_count; lia).
  reflexivity.
Qed.

Lemma next_sends_nothing (c : config) (s : core) (l : label) :
  (batchSize c <= 0)%Z ->
  Forall (fun q => q = insert_query c []) (sent s) ->
  Forall (fun q => q = insert_query c []) (sent (next c s l)).
Proof.
  intros Hb Hall. unfold next. destruct l as [|ob|i r|].
  - simpl. destruct (timer s); [now apply drain_sends_nothing | exact Hall].
  - destruct (finish_cases c ob s) as [[_ ->]|(e & _ & ->)]; [exact Hall |].
    simpl. destruct (_ <=? _)%Z; [now apply drain_sends_nothing | exact Hall].
  - simpl. destruct (inflight s !! i); [| exact Hall].
    destruct r as [[]|m]; exact Hall.
  - change (snd (step c Stop s)) with (next c s Stop). rewrite next_stop.
    exact Hall.
Qed.

(** X13.  With a batch size of zero or less no record ever leaves the
    queue: in every reachable state the queue holds all the records
    captured so far, and every statement handed to the pool is the insert
    built from no record at all, with no tuple after [VALUES] and no
    parameter. *)
Theorem nonpositive_batch_never_flushes (c : config) (trace : list label) :
  (batchSize c <= 0)%Z ->
  let s := after c trace in
  queue s = concat (map (enqueued c) trace)
  /\ stored s = []
  /\ Forall (fun q => q = insert_query c []) (sent s)
  /\ tuples (insert_query c []) = []
  /\ params (insert_query c []) = []
  /\ sql (insert_query c []) = insert_sql (table c) [].
Proof.
  intros Hb s.
  assert (Hall : Forall (fun q => q = insert_query c []) (sent s)).
  { unfold s. induction trace as [|l trace IH] using rev_ind; [constructor |].
    rewrite after_snoc. now apply next_sends_nothing. }
  assert (Hnil : forall qs, Forall (fun q => q = insert_query c []) qs ->
                            concat (map batch qs) = []).
  { induction 1 as [|q qs -> _ IH]; [reflexivity | exact IH]. }
  split; [| split; [| repeat split; exact Hall]].
  - pose proof (run_history c trace boot) as Hh. fold (after c trace) in Hh.
    fold s in Hh. unfold history in Hh. now rewrite (Hnil _ Hall) in Hh.
  - destruct (after_settled c trace) as (done & Hs & Hsub & _).
    fold s in Hs, Hsub.
    assert (Hd : Forall (fun q => q = insert_query c []) done).
    { rewrite Hs in Hall. now apply Forall_app in Hall as [Hd _]. }
    rewrite (Hnil _ Hd) in Hsub. now apply sublist_nil_r in Hsub.
Qed.

(** Witness of [nonpositive_batch_never_flushes]: a batch option of -1,
    two records, ticks and a rejection. *)
Lemma nonpositive_batch_never_flushes_witness :
  let c := configure (sample_options None (Some (-1)%Z)) in
  let a := Finish (sample_observed "198.51.100.1") in
  let b := Finish (sample_observed "198.51.100.2") in
  queue (after c [a; Settle 0 (Throw "syntax error"); Tick; b])
  = enqueued c a ++ enqueued c b.
Proof.
  intros c a b.
  apply (proj1 (nonpositive_batch_never_flushes c
                  [a; Settle 0 (Throw "syntax error"); Tick; b]
                  ltac:(vm_compute; discriminate))).
Defined.

(** X14.  When a record is captured while no insert is pending, the
    handler starts a flush in the same call exactly when the queue, the
    new record included, has reached the batch size; below the batch size
    it only appends the record and waits for the timer. *)
Theorem threshold_starts_flush (c : config) (trace : list label)
    (ob : observed) (e : event) :
  enqueued c (Finish ob) = [e] ->
  draining (after c trace) = false ->
  let s := after c trace in
  let s' := next c s (Finish ob) in
  let k := removed_count c (S (length (queue s))) in
  ((batchSize c <= Z.of_nat (length (queue s)) + 1)%Z ->
   draining s' = true
   /\ sent s' = sent s ++ [insert_query c (take k (queue s ++ [e]))]
   /\ queue s' = drop k (queue s ++ [e]))
  /\ ((Z.of_nat (length (queue s)) + 1 < batchSize c)%Z ->
      s' = set_queue (queue s ++ [e]) s).
Proof.
  intros He Hd s s' k.
  assert (Hs' : s' = let s1 := set_queue (queue s ++ [e]) s in
                     if (batchSize c <=? Z.of_nat (length (queue s1)))%Z
                     then drain c s1 else s1).
  { unfold s', next.
    destruct (finish_cases c ob s) as [[H _]|(e' & H & ->)]; [congruence |].
    rewrite He in H. now injection H as <-. }
  assert (Hlen : Z.of_nat (length (queue (set_queue (queue s ++ [e]) s)))
                 = (Z.of_nat (length (queue s)) + 1)%Z)
    by (simpl; rewrite length_app; simpl; lia).
  cbv zeta in Hs'. rewrite Hlen in Hs'. split.
  - intros Hge. rewrite Hs'.
    destruct (Z.leb_spec (batchSize c) (Z.of_nat (length (queue s)) + 1));
      [| lia].
    destruct (drain_cases c (set_queue (queue s ++ [e]) s))
      as [[[Hx|Hx] _]|(_ & _ & ->)].
    + simpl in Hx. fold s in Hd. congruence.
    + simpl in Hx. now destruct (queue s).
    + unfold flushing. simpl. rewrite length_app. simpl.
      replace (length (queue s) + 1) with (S (length (queue s))) by lia.
      auto.
  - intros Hlt. rewrite Hs'.
    destruct (Z.leb_spec (batchSize c) (Z.of_nat (length (queue s)) + 1));
      [lia | reflexivity].
Qed.

(** Witness of [threshold_starts_flush]: with a batch size of two the
    second record starts the flush. *)
Lemma threshold_starts_flush_witness :
  let c := configure (sample_options None (Some 2%Z)) in
  let a := Finish (sample_observed "198.51.100.1") in
  let b := Finish (sample_observed "198.51.100.2") in
  draining (after c [a]) = false
  /\ draining (next c (after c [a]) b) = true
  /\ queue (next c (after c [a]) b) = [].
Proof.
  intros c a b.
  destruct (threshold_starts_flush c [a] (sample_observed "198.51.100.2")
              (make_event c (sample_observed "198.51.100.2") Js.Null
                          (Js.Str "/users/:id"))
              eq_refl eq_refl) as [Hflush _].
  destruct Hflush as (Hd & _ & Hq); [vm_compute; discriminate |].
  split; [reflexivity |]. split; [exact Hd | exact Hq].
Defined.

(** ** The other read statements *)

Section GroupByCount.

Context `{Countable K} {A : Type} (key : A -> K).

Lemma group_by_count_lookup (rows : list A) (k : K) :
  group_by_count key rows !! k
  = let n := length (List.filter (fun r => bool_decide (key r = k)) rows) in
    if Nat.eqb n 0 then None else Some n.
Proof.
  induction rows as [|r rows IH]; [reflexivity |].
  cbn [group_by_count foldr List.filter]. fold (group_by_count key rows).
  destruct (decide (key r = k)) as [<-|Hne].
  - rewrite bool_decide_eq_true_2 by reflexivity.
    rewrite lookup_insert_eq, IH. cbv zeta. simpl length.
    now destruct (length (List.filter _ rows)).
  - rewrite bool_decide_eq_false_2 by exact Hne.
    now rewrite lookup_insert_ne, IH.
Qed.

Lemma group_by_count_elem (rows : list A) (k : K) (n : nat) :
  (k, n) ∈ map_to_list (group_by_count key rows)
  <-> n = length (List.filter (fun r => bool_decide (key r = k)) rows)
      /\ 0 < n.
Proof.
  rewrite elem_of_map_to_list, group_by_count_lookup. cbv zeta.
  destruct (length _) as [|m]; simpl; split.
  - discriminate.
  - intros [-> Hn]. lia.
  - intros [= <-]. split; [reflexivity | lia].
  - intros [-> _]. reflexivity.
Qed.

(** The counts of the groups add up to the number of rows. *)
Lemma group_by_count_total (rows : list A) :
  sum_list_with snd (map_to_list (group_by_count key rows)) = length rows.
Proof.
  induction rows as [|r rows IH]; [reflexivity |].
  cbn [group_by_count foldr length]. fold (group_by_count key rows).
  set (m := group_by_count key rows) in *.
  destruct (m !! key r) as [n|] eqn:Hm; simpl default.
  - rewrite <- insert_delete_eq.
    rewrite map_to_list_insert by apply lookup_delete_eq.
    rewrite <- IH, <- (map_to_list_delete m (key r) n Hm). reflexivity.
  - rewrite map_to_list_insert by exact Hm. simpl. now rewrite IH.
Qed.

Lemma group_by_count_dom (rows : list A) :
  dom (group_by_count key rows) = list_to_set (map key rows).
Proof.
  induction rows as [|r rows IH]; [apply dom_empty_L |].
  cbn [group_by_count foldr map]. fold (group_by_count key rows).
  now rewrite dom_insert_L, list_to_set_cons, IH.
Qed.

End GroupByCount.

#[local] Instance larger_first_transitive {K} : Transitive (@larger_first K).
Proof. intros x y z. unfold larger_first. lia. Qed.

#[local] Instance larger_first_total {K} : Total (@larger_first K).
Proof. intros x y. unfold larger_first. lia. Qed.

#[local] Instance later_first_transitive : Transitive later_first.
Proof. intros x y z. unfold later_first. lia. Qed.

#[local] Instance later_first_total : Total later_first.
Proof. intros x y. unfold later_first. lia. Qed.

Lemma filter_filter_length {A} (f g : A -> bool) (l : list A) :
  length (List.filter g (List.filter f l))
  = length (List.filter (fun x => f x && g x) l).
Proof.
  induction l as [|x l IH]; [reflexivity |].
  simpl. destruct (f x); simpl; [destruct (g x); simpl |]; now rewrite IH.
Qed.

(** X15.  The status statement of the summary answers with each status
    seen in the last 7 days once, [NULL] included, with the number of rows
    that carry it, in descending order of that number.  The numbers add up
    to the number of rows of the last 7 days in the table the statement
    reads. *)
Theorem statuses_add_up (now : Z) (tbl : list stored_event) :
  let rows := statuses now tbl in
  (forall k n,
      (k, n) ∈ rows
      <-> n = length (List.filter
                       (fun r => within (7 * day_us) now r
                                 && bool_decide (st_status r = k)) tbl)
          /\ 0 < n)
  /\ NoDup (map fst rows)
  /\ StronglySorted larger_first rows
  /\ sum_list_with snd rows
     = length (List.filter (within (7 * day_us) now) tbl).
Proof.
  intros rows.
  set (week := List.filter (within (7 * day_us) now) tbl).
  assert (Hperm : rows ≡ₚ map_to_list (group_by_count st_status week))
    by apply merge_sort_Permutation.
  assert (Hsum : sum_list_with snd rows = length week)
    by (rewrite Hperm; apply group_by_count_total).
  split; [| split; [| split]].
  - intros k n. rewrite Hperm, group_by_count_elem. unfold week.
    now rewrite filter_filter_length.
  - change (NoDup (rows.*1)). rewrite Hperm. apply NoDup_fst_map_to_list.
  - apply StronglySorted_merge_sort; apply _.
  - exact Hsum.
Qed.

(** X16.  The top-IPs statement answers with one row per value of
    [COALESCE(ip_full, ip_cidr)] among the rows of the last 24 hours, the
    rows where both columns are [NULL] forming a group of their own; each
    row carries the number of table rows of its group, the rows come in
    descending order of that number, at most 50 of them, and a group left
    out is no larger than any listed one.  For a record written by the
    capture handler the value grouped on is always what [ip_cidr] holds,
    whatever the policy. *)
Theorem top_ips_groups (now : Z) (tbl : list stored_event) :
  let rows := top_ips now tbl in
  let hits k := length (List.filter
                          (fun r => within day_us now r
                                    && bool_decide (ip_key r = k)) tbl) in
  (forall k n, (k, n) ∈ rows -> n = hits k /\ 0 < n)
  /\ NoDup (map fst rows)
  /\ StronglySorted larger_first rows
  /\ length rows
     = Nat.min 50 (size (list_to_set (C := gset (option string))
                           (map ip_key (List.filter (within day_us now) tbl))))
  /\ (forall k, 0 < hits k -> k ∉ map fst rows ->
                forall k' n', (k', n') ∈ rows -> hits k <= n')
  /\ (forall opts ob uid rt at_ st,
        let e := make_event (configure opts) ob uid rt in
        ip_key (StoredEvent at_ st (text_column (ip_cidr e))
                            (text_column (ip_full e)))
        = text_column (ip_cidr e)).
Proof.
  intros rows hits.
  set (day := List.filter (within day_us now) tbl).
  set (sorted := merge_sort larger_first
                   (map_to_list (group_by_count ip_key day))).
  assert (Hrows : rows = take 50 sorted) by reflexivity.
  assert (Hperm : sorted ≡ₚ map_to_list (group_by_count ip_key day))
    by apply merge_sort_Permutation.
  assert (Hsorted : StronglySorted larger_first sorted)
    by (apply StronglySorted_merge_sort; apply _).
  assert (Hin : forall k n, (k, n) ∈ sorted <-> n = hits k /\ 0 < n).
  { intros k n. rewrite Hperm, group_by_count_elem. unfold day, hits.
    now rewrite filter_filter_length. }
  split; [| split; [| split; [| split; [| split]]]].
  - intros k n Hk. apply Hin. rewrite Hrows in Hk.
    apply elem_of_take in Hk as (i & Hi & _).
    apply list_elem_of_lookup. eauto.
  - rewrite Hrows.
    assert (Hsub : map fst (take 50 sorted) `sublist_of` map fst sorted)
      by (apply (fmap_sublist fst); apply sublist_take).
    assert (Hnd : NoDup (map fst sorted)).
    { change (NoDup (sorted.*1)). rewrite Hperm. apply NoDup_fst_map_to_list. }
    now apply (sublist_NoDup (map fst (take 50 sorted)) (map fst sorted)).
  - rewrite Hrows. apply (StronglySorted_app_1_l _ _ (drop 50 sorted)).
    now rewrite take_drop.
  - rewrite Hrows, length_take, Hperm, length_map_to_list.
    rewrite <- (group_by_count_dom ip_key day). now rewrite size_dom.
  - intros k Hpos Hout k' n' Hk'.
    assert (Hk : (k, hits k) ∈ sorted) by (apply Hin; auto).
    rewrite <- (take_drop 50 sorted), elem_of_app in Hk.
    destruct Hk as [Hk|Hk].
    + exfalso. apply Hout. rewrite Hrows.
      change k with (fst (k, hits k)). now apply list_elem_of_fmap_2.
    + rewrite <- (take_drop 50 sorted) in Hsorted.
      rewrite Hrows in Hk'.
      exact (StronglySorted_app_1_elem_of larger_first _ _ _ _ Hsorted Hk' Hk).
  - intros opts ob uid rt at_ st e. unfold ip_key. cbn [st_ip_full st_ip_cidr].
    unfold e, make_event. cbn [ip_cidr ip_full].
    destruct (decide (opt_anonymizeIp opts = Some "none")) as [Hn|Hn].
    + destruct (configure_none opts Hn) as [-> ->].
      unfold Js.or, Anonymizer.anonymize_none. simpl.
      now destruct (String.eqb (ob_ip ob) "").
    + unfold configure. cbn [full_ip].
      now rewrite bool_decide_eq_false_2 by exact Hn.
Qed.

(** X17.  The recent-activity statement answers with [min(200, n)] of the
    [n] table rows, latest first; the rows left out make up, with the
    rows returned, the whole table, and none of them is later than a row
    returned. *)
Theorem recent_latest (tbl : list stored_event) :
  let rows := recent tbl in
  length rows = Nat.min 200 (length tbl)
  /\ StronglySorted later_first rows
  /\ exists rest,
       tbl ≡ₚ rows ++ rest
       /\ forall x y, x ∈ rows -> y ∈ rest ->
                      (st_occurred_at y <= st_occurred_at x)%Z.
Proof.
  intros rows. set (sorted := merge_sort later_first tbl).
  assert (Hrows : rows = take 200 sorted) by reflexivity.
  assert (Hperm : sorted ≡ₚ tbl) by apply merge_sort_Permutation.
  assert (Hsorted : StronglySorted later_first sorted)
    by (apply StronglySorted_merge_sort; apply _).
  split; [| split].
  - now rewrite Hrows, length_take, Hperm.
  - rewrite Hrows. apply (StronglySorted_app_1_l _ _ (drop 200 sorted)).
    now rewrite take_drop.
  - exists (drop 200 sorted). rewrite Hrows, take_drop. split; [now symmetry |].
    intros x y Hx Hy. rewrite <- (take_drop 200 sorted) in Hsorted.
    exact (StronglySorted_app_1_elem_of later_first _ _ _ _ Hsorted Hx Hy).
Qed.

(** Witness of [statuses_add_up]: statuses 200, 200 and 500 in the last
    week. *)
Lemma statuses_add_up_witness :
  statuses 1700000000000000 (sample_table 1700000000000000)
  = [(Some 200%Z, 2); (Some 500%Z, 1)]
  /\ sum_list_with snd (statuses 1700000000000000 (sample_table 1700000000000000))
     = 3.
Proof.
  destruct (statuses_add_up 1700000000000000 (sample_table 1700000000000000))
    as (_ & _ & _ & Hsum).
  split.
  - vm_compute. reflexivity.
  - rewrite Hsum. vm_compute. reflexivity.
Defined.

(** Witness of [top_ips_groups]: the group of the rows without any
    address is listed under [NULL]. *)
Lemma top_ips_groups_witness :
  top_ips 1700000000000000 (sample_table 1700000000000000)
  = [(Some "198.51.100.0", 2); (None, 1)]
  /\ 1 = length (List.filter
                   (fun r => within day_us 1700000000000000 r
                             && bool_decide (ip_key r = None))
                   (sample_table 1700000000000000)).
Proof.
  split; [vm_compute; reflexivity |].
  apply (proj1 (top_ips_groups 1700000000000000
                  (sample_table 1700000000000000)) None 1).
  apply list_elem_of_In. vm_compute. right. left. reflexivity.
Defined.

(** Witness of [recent_latest]: the four rows, latest first. *)
Lemma recent_latest_witness :
  length (recent (sample_table 1700000000000000)) = 4
  /\ map st_occurred_at (recent (sample_table 1700000000000000))
     = [1699999999999000; 1699999999998000; 1699999999997000;
        1698790400000000]%Z.
Proof.
  split.
  - rewrite (proj1 (recent_latest (sample_table 1700000000000000))).
    reflexivity.
  - vm_compute. reflexivity.
Defined.
